(** * Take-Grant access-control core: rights graph and reachability search

    Shallow embedding of [modules/access_graph.py], [modules/security_kernel.py]
    and of the object deletion of [modules/operations.py] (with the part of
    [modules/objects.py] it calls).

    Python dictionaries are [gmap]s, Python sets are [gset]s.  A call that
    can raise [KeyError] returns [option]; [None] stands for the raised
    exception.  Loops over a Python set run over [elements] of the set; the
    lemmas on those loops are proved for every list, so they do not depend
    on the iteration order. *)

From stdpp Require Import gmap strings list fin_maps fin_sets.

Open Scope string_scope.
Set Warnings "-clear-no-such-hyp".

(** ** access_graph.py *)

(** [class AccessRight(Enum)] *)
Inductive AccessRight : Type :=
  | READ | WRITE | EXECUTE | TAKE | GRANT | OWN.

#[global] Instance AccessRight_eq_dec : EqDecision AccessRight.
Proof. solve_decision. Defined.

Definition AccessRight_to_nat (r : AccessRight) : nat :=
  match r with
  | READ => 0 | WRITE => 1 | EXECUTE => 2 | TAKE => 3 | GRANT => 4 | OWN => 5
  end.

Definition AccessRight_of_nat (n : nat) : option AccessRight :=
  match n with
  | 0 => Some READ | 1 => Some WRITE | 2 => Some EXECUTE
  | 3 => Some TAKE | 4 => Some GRANT | 5 => Some OWN
  | _ => None
  end.

#[global] Instance AccessRight_countable : Countable AccessRight.
Proof.
  apply (inj_countable AccessRight_to_nat AccessRight_of_nat).
  by intros [].
Defined.

(** The value of [AccessRight.X.value]: the letter used by the shell. *)
Definition AccessRight_value (r : AccessRight) : string :=
  match r with
  | READ => "r" | WRITE => "w" | EXECUTE => "x"
  | TAKE => "t" | GRANT => "g" | OWN => "o"
  end.

(** [class AccessGraph]: the edge map and its two lookup indices. *)
Record AccessGraph : Type := mkAccessGraph {
  graph : gmap (string * string) (gset AccessRight);
  subject_edges : gmap string (gset string);
  object_edges : gmap string (gset string)
}.

(** [AccessGraph.__init__] *)
Definition empty_graph : AccessGraph := mkAccessGraph ∅ ∅ ∅.

Definition _normalize_edge (subject_id object_id : string) : string * string :=
  (subject_id, object_id).

Definition get_rights (g : AccessGraph) (subject_id object_id : string)
  : gset AccessRight :=
  default ∅ (graph g !! _normalize_edge subject_id object_id).

Definition has_right (g : AccessGraph) (subject_id object_id : string)
    (right : AccessRight) : bool :=
  match graph g !! _normalize_edge subject_id object_id with
  | Some rs => bool_decide (right ∈ rs)
  | None => false
  end.

Definition get_subject_objects (g : AccessGraph) (subject_id : string)
  : gset string :=
  default ∅ (subject_edges g !! subject_id).

Definition get_object_subjects (g : AccessGraph) (object_id : string)
  : gset string :=
  default ∅ (object_edges g !! object_id).

(** [d.setdefault-like] step of [add_right]:
    [if k not in d: d[k] = set()] followed by [d[k].add(x)]. *)
Definition index_add (k x : string) (idx : gmap string (gset string))
  : gmap string (gset string) :=
  <[k := {[x]} ∪ default ∅ (idx !! k)]> idx.

Definition add_right (g : AccessGraph) (subject_id object_id : string)
    (right : AccessRight) : AccessGraph :=
  let edge := _normalize_edge subject_id object_id in
  mkAccessGraph
    (<[edge := {[right]} ∪ default ∅ (graph g !! edge)]> (graph g))
    (index_add subject_id object_id (subject_edges g))
    (index_add object_id subject_id (object_edges g)).

(** [d[k].discard(x)]: the subscript raises [KeyError] on a missing key. *)
Definition index_discard (k x : string) (idx : gmap string (gset string))
  : option (gmap string (gset string)) :=
  xs ← idx !! k; Some (<[k := xs ∖ {[x]}]> idx).

Definition remove_right (g : AccessGraph) (subject_id object_id : string)
    (right : AccessRight) : option AccessGraph :=
  let edge := _normalize_edge subject_id object_id in
  match graph g !! edge with
  | None => Some g
  | Some rs =>
      let rs' := rs ∖ {[right]} in
      if decide (rs' = ∅) then
        se ← index_discard subject_id object_id (subject_edges g);
        oe ← index_discard object_id subject_id (object_edges g);
        Some (mkAccessGraph (delete edge (graph g)) se oe)
      else
        Some (mkAccessGraph (<[edge := rs']> (graph g))
                            (subject_edges g) (object_edges g))
  end.

(** [for right in rights: self.add_right(subject_id, object_id, right)] *)
Definition add_rights (g : AccessGraph) (subject_id object_id : string)
    (rights : list AccessRight) : AccessGraph :=
  foldl (λ g right, add_right g subject_id object_id right) g rights.

Definition take (g : AccessGraph)
    (subject_id source_object_id target_object_id : string)
    (rights : gset AccessRight) : bool * AccessGraph :=
  if negb (has_right g subject_id source_object_id TAKE) then (false, g) else
  let source_rights := get_rights g source_object_id target_object_id in
  if decide (source_rights = ∅) then (false, g) else
  let available_rights := rights ∩ source_rights in
  let g' := add_rights g subject_id target_object_id (elements available_rights) in
  (bool_decide (0 < size available_rights), g').

Definition grant (g : AccessGraph)
    (subject_id source_object_id target_subject_id : string)
    (rights : gset AccessRight) : bool * AccessGraph :=
  if negb (has_right g subject_id source_object_id GRANT) then (false, g) else
  let subject_rights := get_rights g subject_id source_object_id in
  if decide (subject_rights = ∅) then (false, g) else
  let available_rights := rights ∩ subject_rights in
  let g' := add_rights g target_subject_id source_object_id (elements available_rights) in
  (bool_decide (0 < size available_rights), g').

Definition ALL_RIGHTS : gset AccessRight :=
  {[READ; WRITE; EXECUTE; TAKE; GRANT; OWN]}.

(** [rights = None] is the omitted argument. *)
Definition create (g : AccessGraph) (subject_id object_id : string)
    (rights : option (gset AccessRight)) : bool * AccessGraph :=
  let rights := match rights with
                | None => ALL_RIGHTS
                | Some rights => rights
                end in
  (true, add_rights g subject_id object_id (elements rights)).

(** [for right in rights: self.remove_right(subject_id, object_id, right)],
    for a [rights] that is a set of its own, not the one stored on the
    edge. *)
Fixpoint remove_rights (g : AccessGraph) (subject_id object_id : string)
    (rights : list AccessRight) : option AccessGraph :=
  match rights with
  | [] => Some g
  | r :: rest =>
      g' ← remove_right g subject_id object_id r;
      remove_rights g' subject_id object_id rest
  end.

Definition remove (g : AccessGraph) (subject_id object_id : string)
    (rights : gset AccessRight) : option AccessGraph :=
  remove_rights g subject_id object_id (elements rights).

Definition get_all_edges (g : AccessGraph)
  : list (string * string * gset AccessRight) :=
  (λ '(edge, rights), (edge.1, edge.2, rights)) <$>
    filter (λ '(_, rights), rights ≠ ∅) (map_to_list (graph g)).

(** ** security_kernel.py *)

(** The nodes the searches enumerate from [self.access_graph.graph.items()]:
    [all_objects] collects the object of every edge (grant branch of
    [_dfs_search]), [all_nodes] both ends (as [get_accessible_objects]). *)
Definition all_objects (g : AccessGraph) : gset string :=
  list_to_set ((λ kv, kv.1.2) <$> map_to_list (graph g)).

Definition all_nodes (g : AccessGraph) : gset string :=
  list_to_set (map_to_list (graph g) ≫= λ kv, [kv.1.2; kv.1.1]).

(** The loop over [objects_with_take].  [Some true] is the [return True] of
    the enclosing function, [Some false] the loop running to its end, [None]
    a recursive call that did not return.  [rec] is the recursive call
    [self._dfs_search(intermediate_object, target_object, required_right,
    visited.copy())]. *)
Fixpoint take_branch (rec : string → option bool) (g : AccessGraph)
    (current_subject target_object : string) (required_right : AccessRight)
    (objects_with_take : list string) : option bool :=
  match objects_with_take with
  | [] => Some false
  | intermediate_object :: rest =>
      if negb (has_right g current_subject intermediate_object TAKE) then
        take_branch rec g current_subject target_object required_right rest
      else if has_right g intermediate_object target_object required_right then
        Some true
      else
        match rec intermediate_object with
        | None => None
        | Some true => Some true
        | Some false =>
            take_branch rec g current_subject target_object required_right rest
        end
  end.

(** The two nested loops of the grant branch; they read the graph only. *)
Definition grant_branch (g : AccessGraph) (target_object : string)
    (required_right : AccessRight) : bool :=
  existsb (λ intermediate_object,
    existsb (λ grant_subject,
      has_right g grant_subject intermediate_object GRANT
      && has_right g intermediate_object target_object required_right)
      (elements (get_object_subjects g intermediate_object)))
    (elements (all_objects g)).

(** [fuel] bounds the depth of the recursion; [None] is returned when it is
    used up.  [visited] is passed by value: the callee works on
    [visited.copy()], so its [visited.add] is not seen by the caller. *)
Fixpoint _dfs_search (fuel : nat) (g : AccessGraph)
    (current_subject target_object : string) (required_right : AccessRight)
    (visited : gset string) : option bool :=
  match fuel with
  | 0 => None
  | S fuel =>
      if decide (current_subject ∈ visited) then Some false else
      let visited := {[current_subject]} ∪ visited in
      if has_right g current_subject target_object required_right then
        Some true
      else
        match take_branch
                (λ intermediate_object,
                   _dfs_search fuel g intermediate_object target_object
                     required_right visited)
                g current_subject target_object required_right
                (elements (get_subject_objects g current_subject)) with
        | None => None
        | Some true => Some true
        | Some false => Some (grant_branch g target_object required_right)
        end
  end.

(** Depth budget given to a top-level search: one more than the number of
    identifiers in the graph. *)
Definition search_fuel (g : AccessGraph) : nat := S (size (all_nodes g)).

Definition _find_access_path (g : AccessGraph) (subject_id object_id : string)
    (required_right : AccessRight) : option bool :=
  _dfs_search (search_fuel g) g subject_id object_id required_right ∅.

Definition can_access (g : AccessGraph) (subject_id object_id : string)
    (required_right : AccessRight) : option bool :=
  if has_right g subject_id object_id required_right then Some true
  else _find_access_path g subject_id object_id required_right.

Fixpoint accessible_loop (g : AccessGraph) (subject_id : string)
    (required_right : AccessRight) (objs : list string) : option (list string) :=
  match objs with
  | [] => Some []
  | object_id :: rest =>
      b ← can_access g subject_id object_id required_right;
      accessible ← accessible_loop g subject_id required_right rest;
      Some (if b : bool then object_id :: accessible else accessible)
  end.

Definition get_accessible_objects (g : AccessGraph) (subject_id : string)
    (required_right : AccessRight) : option (list string) :=
  accessible_loop g subject_id required_right (elements (all_nodes g)).

Definition check_right (g : AccessGraph) (subject_id object_id : string)
    (right : AccessRight) : option bool :=
  can_access g subject_id object_id right.

(** ** objects.py *)

Module Objects.

Inductive ObjectType : Type := FILE | DIRECTORY | SUBJECT.

#[global] Instance ObjectType_eq_dec : EqDecision ObjectType.
Proof. solve_decision. Defined.

(** The dictionary stored per object (without its [created_at] time stamp). *)
Record ObjectInfo : Type := mkObjectInfo {
  obj_id : string;
  obj_name : string;
  obj_type : ObjectType;
  obj_owner : string;
  obj_parent_id : option string
}.

Record ObjectIdentifier : Type := mkObjectIdentifier {
  objects : gmap string ObjectInfo;
  name_to_id : gmap string string
}.

Definition empty_identifier : ObjectIdentifier := mkObjectIdentifier ∅ ∅.

(** [object_id] is the value [generate_id] returned; [None] is the raised
    [ValueError]. *)
Definition create_object (oi : ObjectIdentifier) (object_id name : string)
    (obj_type : ObjectType) (owner : string) (parent_id : option string)
  : option (string * ObjectIdentifier) :=
  match name_to_id oi !! name with
  | Some _ => None
  | None =>
      Some (object_id,
            mkObjectIdentifier
              (<[object_id := mkObjectInfo object_id name obj_type owner parent_id]>
                 (objects oi))
              (<[name := object_id]> (name_to_id oi)))
  end.

(** Outer [None]: [KeyError]; inner [None]: Python's [None]. *)
Definition get_object (oi : ObjectIdentifier) (identifier : string)
  : option (option ObjectInfo) :=
  match objects oi !! identifier with
  | Some obj => Some (Some obj)
  | None =>
      match name_to_id oi !! identifier with
      | Some object_id => obj ← objects oi !! object_id; Some (Some obj)
      | None => Some None
      end
  end.

Definition get_object_id (oi : ObjectIdentifier) (identifier : string)
  : option string :=
  match objects oi !! identifier with
  | Some _ => Some identifier
  | None => name_to_id oi !! identifier
  end.

(** [if not object_id] also holds for the empty string. *)
Definition delete_object (oi : ObjectIdentifier) (identifier : string)
  : option (bool * ObjectIdentifier) :=
  match get_object_id oi identifier with
  | None => Some (false, oi)
  | Some object_id =>
      if decide (object_id = "") then Some (false, oi) else
      obj ← objects oi !! object_id;
      Some (true,
            mkObjectIdentifier (delete object_id (objects oi))
                               (delete (obj_name obj) (name_to_id oi)))
  end.

(** [list_objects]: the values of [objects] that pass both filters.  A
    filter that is [None] or falsy (the empty owner name) is not applied.
    The list follows [map_to_list], not the insertion order of the
    dictionary. *)
Definition list_objects_skip (type_filter : option ObjectType)
    (owner : option string) (obj : ObjectInfo) : bool :=
  match type_filter with
  | Some t => bool_decide (obj_type obj ≠ t)
  | None => false
  end
  || match owner with
     | Some owner => bool_decide (owner ≠ "") && bool_decide (obj_owner obj ≠ owner)
     | None => false
     end.

Definition list_objects (oi : ObjectIdentifier) (type_filter : option ObjectType)
    (owner : option string) : list ObjectInfo :=
  filter (λ obj, list_objects_skip type_filter owner obj = false)
         (map_to_list (objects oi)).*2.

Definition get_objects_by_owner (oi : ObjectIdentifier) (owner : string)
  : list ObjectInfo :=
  list_objects oi None (Some owner).

Definition object_exists (oi : ObjectIdentifier) (identifier : string)
  : option bool :=
  obj ← get_object oi identifier; Some (bool_decide (is_Some obj)).

(** The two dictionaries agree: every object is filed under its own
    identifier and found by its name, and every name leads to an object of
    that name. *)
Definition consistent (oi : ObjectIdentifier) : Prop :=
  (∀ i obj, objects oi !! i = Some obj →
     obj_id obj = i ∧ name_to_id oi !! obj_name obj = Some i)
  ∧ (∀ n i, name_to_id oi !! n = Some i →
       ∃ obj, objects oi !! i = Some obj ∧ obj_name obj = n).

End Objects.

(** ** operations.py *)

(** The edge removal of [OperationsModule.delete_object]: the keys whose
    object is [object_id] are collected, then deleted from [graph]; the two
    indices are not touched.  Every collected key is in the map, so [del]
    does not raise. *)
Definition delete_object_edges (g : AccessGraph) (object_id : string)
  : AccessGraph :=
  let edges_to_remove :=
    (filter (λ kv, kv.1.2 = object_id) (map_to_list (graph g))).*1 in
  mkAccessGraph (foldl (λ m edge, delete edge m) (graph g) edges_to_remove)
                (subject_edges g) (object_edges g).

Module Operations.

Record OperationsModule : Type := mkOperationsModule {
  object_identifier : Objects.ObjectIdentifier;
  access_graph : AccessGraph;
  file_contents : gmap string string
}.

Definition empty_module : OperationsModule :=
  mkOperationsModule Objects.empty_identifier empty_graph ∅.

(** [new_id] is the identifier [generate_id] produces for the file. *)
Definition create_file (ops : OperationsModule) (subject_id name : string)
    (parent_id : option string) (new_id : string)
  : option string * OperationsModule :=
  match Objects.create_object (object_identifier ops) new_id name
          Objects.FILE subject_id parent_id with
  | None => (None, ops)
  | Some (object_id, oi) =>
      (Some object_id,
       mkOperationsModule oi
         (create (access_graph ops) subject_id object_id None).2
         (<[object_id := ""]> (file_contents ops)))
  end.

(** [None]: an exception ([KeyError]) or a search that did not return. *)
Definition delete_object (ops : OperationsModule) (subject_id object_id : string)
  : option (bool * OperationsModule) :=
  obj ← Objects.get_object (object_identifier ops) object_id;
  match obj with
  | None => Some (false, ops)
  | Some obj =>
      allowed ←
        (if decide (Objects.obj_owner obj ≠ subject_id)
         then can_access (access_graph ops) subject_id object_id OWN
         else Some true);
      if negb allowed then Some (false, ops) else
      let file_contents := delete object_id (file_contents ops) in
      let access_graph := delete_object_edges (access_graph ops) object_id in
      '(deleted, oi) ← Objects.delete_object (object_identifier ops) object_id;
      Some (deleted, mkOperationsModule oi access_graph file_contents)
  end.

(** [new_id] is the identifier [generate_id] produces for the directory. *)
Definition create_directory (ops : OperationsModule) (subject_id name : string)
    (parent_id : option string) (new_id : string)
  : option string * OperationsModule :=
  match Objects.create_object (object_identifier ops) new_id name
          Objects.DIRECTORY subject_id parent_id with
  | None => (None, ops)
  | Some (object_id, oi) =>
      (Some object_id,
       mkOperationsModule oi
         (create (access_graph ops) subject_id object_id None).2
         (file_contents ops))
  end.

(** Outer [None]: an exception or a search that did not return; inner
    [None]: Python's [None] (access denied, or not a file). *)
Definition read_file (ops : OperationsModule) (subject_id object_id : string)
  : option (option string) :=
  allowed ← can_access (access_graph ops) subject_id object_id READ;
  if negb allowed then Some None else
  obj ← Objects.get_object (object_identifier ops) object_id;
  match obj with
  | None => Some None
  | Some obj =>
      if decide (Objects.obj_type obj ≠ Objects.FILE) then Some None
      else Some (Some (default "" (file_contents ops !! object_id)))
  end.

Definition write_file (ops : OperationsModule) (subject_id object_id : string)
    (content : string) : option (bool * OperationsModule) :=
  allowed ← can_access (access_graph ops) subject_id object_id WRITE;
  if negb allowed then Some (false, ops) else
  obj ← Objects.get_object (object_identifier ops) object_id;
  match obj with
  | None => Some (false, ops)
  | Some obj =>
      if decide (Objects.obj_type obj ≠ Objects.FILE) then Some (false, ops)
      else Some (true,
                 mkOperationsModule (object_identifier ops) (access_graph ops)
                   (<[object_id := content]> (file_contents ops)))
  end.

Definition execute_file (ops : OperationsModule) (subject_id object_id : string)
  : option bool :=
  allowed ← can_access (access_graph ops) subject_id object_id EXECUTE;
  if negb allowed then Some false else
  obj ← Objects.get_object (object_identifier ops) object_id;
  match obj with
  | None => Some false
  | Some obj =>
      if decide (Objects.obj_type obj ≠ Objects.FILE) then Some false
      else Some true
  end.

Definition list_directory (ops : OperationsModule)
    (subject_id directory_id : string) : option (list Objects.ObjectInfo) :=
  allowed ← can_access (access_graph ops) subject_id directory_id READ;
  if negb allowed then Some [] else
  obj ← Objects.get_object (object_identifier ops) directory_id;
  match obj with
  | None => Some []
  | Some obj =>
      if decide (Objects.obj_type obj ≠ Objects.DIRECTORY) then Some []
      else Some (filter (λ o, Objects.obj_parent_id o = Some directory_id)
                        (Objects.list_objects (object_identifier ops) None None))
  end.

Definition get_file_content (ops : OperationsModule) (object_id : string)
  : string :=
  default "" (file_contents ops !! object_id).

End Operations.

(** ** auth.py

    The users dictionary and the current user, as they are in memory; the
    writes to the data file are left out.  A user entry is the dictionary
    [register] builds. *)

Module Auth.

Record User : Type := mkUser {
  user_password_hash : string;
  user_is_admin : bool;
  user_created_at : string
}.

Record AuthenticationModule : Type := mkAuthenticationModule {
  users : gmap string User;
  current_user : option string
}.

Section hashing.
(** [hashlib.sha256(password.encode()).hexdigest()] *)
Variable _hash_password : string → string.


End hashing.


Definition is_authenticated (am : AuthenticationModule) : bool :=
  bool_decide (is_Some (current_user am)).

Definition get_current_user (am : AuthenticationModule) : option string :=
  current_user am.

(** [user = username or self.current_user]; an empty name is falsy. *)
Definition is_admin (am : AuthenticationModule) (username : option string)
  : bool :=
  let user :=
    match username with
    | Some u => if decide (u = "") then current_user am else Some u
    | None => current_user am
    end in
  match user with
  | Some u =>
      if decide (u = "") then false else
      match users am !! u with
      | Some user => user_is_admin user
      | None => false
      end
  | None => false
  end.


Definition list_users (am : AuthenticationModule) : list string :=
  (map_to_list (users am)).*1.


End Auth.

(** ** admin.py *)

(** The dictionary of [handle_check] in cli.py: the letter of a right. *)
Definition right_map (right_str : string) : option AccessRight :=
  if decide (right_str = "r") then Some READ
  else if decide (right_str = "w") then Some WRITE
  else if decide (right_str = "x") then Some EXECUTE
  else if decide (right_str = "t") then Some TAKE
  else if decide (right_str = "g") then Some GRANT
  else if decide (right_str = "o") then Some OWN
  else None.

Module Admin.

Record AdminModule : Type := mkAdminModule {
  auth_module : Auth.AuthenticationModule;
  object_identifier : Objects.ObjectIdentifier;
  access_graph : AccessGraph
}.

Definition is_admin (adm : AdminModule) (username : string) : bool :=
  Auth.is_admin (auth_module adm) (Some username).


Definition list_all_users (adm : AdminModule) (admin_username : string)
  : list string :=
  if negb (is_admin adm admin_username) then []
  else Auth.list_users (auth_module adm).

Definition list_all_objects (adm : AdminModule) (admin_username : string)
  : list Objects.ObjectInfo :=
  if negb (is_admin adm admin_username) then []
  else Objects.list_objects (object_identifier adm) None None.



(** An entry is the dictionary with keys subject, object and rights, the
    rights as the list of their letters. *)
Definition get_access_matrix (adm : AdminModule) (admin_username : string)
  : list (string * string * list string) :=
  if negb (is_admin adm admin_username) then []
  else (λ kv, (kv.1.1, kv.1.2, AccessRight_value <$> elements kv.2))
         <$> map_to_list (graph (access_graph adm)).

Definition delete_user (adm : AdminModule)
    (admin_username target_username : string) : bool :=
  if negb (is_admin adm admin_username) then false
  else if decide (target_username = admin_username) then false
  else match Objects.get_objects_by_owner (object_identifier adm)
               target_username with
       | [] => true
       | _ :: _ => false
       end.

End Admin.




(** ** Sequences of mutating operations on the graph *)

Inductive Op : Type :=
  | OpAddRight (subject_id object_id : string) (right : AccessRight)
  | OpRemoveRight (subject_id object_id : string) (right : AccessRight)
  | OpTake (subject_id source target : string) (rights : gset AccessRight)
  | OpGrant (subject_id source target : string) (rights : gset AccessRight)
  | OpCreate (subject_id object_id : string) (rights : option (gset AccessRight))
  | OpRemove (subject_id object_id : string) (rights : gset AccessRight)
  | OpDeleteObject (object_id : string).

(** The primitives of the graph itself, without the bulk deletion of the
    operations layer. *)
Definition core_op (op : Op) : bool :=
  match op with
  | OpDeleteObject _ => false
  | _ => true
  end.

Definition apply_op (g : AccessGraph) (op : Op) : option AccessGraph :=
  match op with
  | OpAddRight s o r => Some (add_right g s o r)
  | OpRemoveRight s o r => remove_right g s o r
  | OpTake s src tgt rs => Some (take g s src tgt rs).2
  | OpGrant s src tgt rs => Some (grant g s src tgt rs).2
  | OpCreate s o rs => Some (create g s o rs).2
  | OpRemove s o rs => remove g s o rs
  | OpDeleteObject o => Some (delete_object_edges g o)
  end.

Fixpoint run (g : AccessGraph) (ops : list Op) : option AccessGraph :=
  match ops with
  | [] => Some g
  | op :: ops => g' ← apply_op g op; run g' ops
  end.

(** ** Invariants of the stored graph *)

(** Every stored edge is listed in both indices. *)
Definition index_covers (g : AccessGraph) : Prop :=
  ∀ s o, is_Some (graph g !! (s, o)) →
    o ∈ get_subject_objects g s ∧ s ∈ get_object_subjects g o.

(** Every index entry is a stored edge. *)
Definition index_sound (g : AccessGraph) : Prop :=
  ∀ s o, (o ∈ get_subject_objects g s ∨ s ∈ get_object_subjects g o) →
    is_Some (graph g !! (s, o)).

(** No edge is stored with an empty right-set. *)
Definition edges_nonempty (g : AccessGraph) : Prop :=
  ∀ e rs, graph g !! e = Some rs → rs ≠ ∅.

(** The two indices mirror the edge map: the statement of C1 at one state. *)
Definition index_mirror (g : AccessGraph) : Prop :=
  ∀ s o,
    (o ∈ get_subject_objects g s ↔ get_rights g s o ≠ ∅)
    ∧ (s ∈ get_object_subjects g o ↔ get_rights g s o ≠ ∅).

(** Two disjoint subgraphs: no edge joins [part] and its complement. *)
Definition disjoint_subgraphs (g : AccessGraph) (part : gset string) : Prop :=
  ∀ s o, is_Some (graph g !! (s, o)) → (s ∈ part ↔ o ∈ part).

(** Some node that holds [right] on [target] has a holder of GRANT on it. *)
Definition grant_possible (g : AccessGraph) (target : string)
    (right : AccessRight) : Prop :=
  ∃ grant_subject intermediate,
    has_right g grant_subject intermediate GRANT = true
    ∧ has_right g intermediate target right = true.

(** The graph after the rights [rs] were added on one edge: what a
    non-empty run of [add_right] calls on that edge amounts to. *)
Definition add_set (g : AccessGraph) (subject_id object_id : string)
    (rs : gset AccessRight) : AccessGraph :=
  mkAccessGraph
    (<[(subject_id, object_id) := rs ∪ get_rights g subject_id object_id]> (graph g))
    (index_add subject_id object_id (subject_edges g))
    (index_add object_id subject_id (object_edges g)).

(** ** Reachability along TAKE edges *)

(** [a] holds TAKE on [b]. *)
Definition take_edge (g : AccessGraph) (a b : string) : Prop :=
  has_right g a b TAKE = true.

(** Some node reached from [subject] along TAKE edges (possibly [subject]
    itself) holds [right] on [target]. *)
Definition take_reachable (g : AccessGraph) (subject target : string)
    (right : AccessRight) : Prop :=
  ∃ holder, rtc (take_edge g) subject holder
            ∧ has_right g holder target right = true.

(** A walk of [n] TAKE edges from a node to a holder of [right] on
    [target], none of whose nodes but the last is in [visited]. *)
Inductive take_walk (g : AccessGraph) (target : string) (right : AccessRight)
    (visited : gset string) : nat → string → Prop :=
  | take_walk_here holder :
      has_right g holder target right = true →
      take_walk g target right visited 0 holder
  | take_walk_step n a b :
      a ∉ visited → take_edge g a b →
      take_walk g target right visited n b →
      take_walk g target right visited (S n) a.

(** Some subject holds [right] on [object_id]. *)
Definition held_by_someone (g : AccessGraph) (object_id : string)
    (right : AccessRight) : Prop :=
  ∃ s, has_right g s object_id right = true.

(** Every right of [g] is a right of [g']. *)
Definition rights_included (g g' : AccessGraph) : Prop :=
  ∀ s o, get_rights g s o ⊆ get_rights g' s o.

(** The operations that only add rights. *)
Definition growing_op (op : Op) : bool :=
  match op with
  | OpAddRight _ _ _ | OpTake _ _ _ _ | OpGrant _ _ _ _ | OpCreate _ _ _ => true
  | _ => false
  end.

(** The operations that pass no set of rights to a removal loop. *)
Definition single_right_op (op : Op) : bool :=
  match op with
  | OpRemove _ _ _ => false
  | _ => true
  end.

(** How a call ends: it returns, or it raises with the graph as it is at
    that point. *)
Inductive CallOutcome : Type :=
  | Returned (g : AccessGraph)
  | RuntimeError (g : AccessGraph)
  | KeyError.

(** [self.remove(subject_id, object_id, self.get_rights(subject_id, object_id))]:
    [remove] called with the very set object that [get_rights] returns for
    the same edge.  For an edge that exists this is the stored set, so the
    loop iterates the set from which [remove_right] discards: after the
    first right (the first of the iteration order) the set has changed size
    and the iterator raises [RuntimeError].  For an edge that does not exist
    [get_rights] returns a new empty set and the loop does nothing. *)
Definition remove_stored (g : AccessGraph) (subject_id object_id : string)
  : CallOutcome :=
  match graph g !! _normalize_edge subject_id object_id with
  | None => Returned g
  | Some stored =>
      match elements stored with
      | [] => Returned g
      | r :: _ =>
          match remove_right g subject_id object_id r with
          | Some g' => RuntimeError g'
          | None => KeyError
          end
      end
  end.

(** * Properties *)

(** ** Direct queries *)

Lemma has_right_get_rights g s o r :
  has_right g s o r = true ↔ r ∈ get_rights g s o.
Proof.
  unfold has_right, get_rights.
  destruct (graph g !! _normalize_edge s o) as [rs|]; simpl.
  - apply bool_decide_eq_true.
  - split; [done | set_solver].
Qed.

Lemma has_right_false g s o r :
  has_right g s o r = false ↔ r ∉ get_rights g s o.
Proof.
  rewrite <- has_right_get_rights. destruct (has_right g s o r); naive_solver.
Qed.

Lemma has_right_is_edge g s o r :
  has_right g s o r = true → is_Some (graph g !! (s, o)).
Proof.
  unfold has_right, _normalize_edge. destruct (graph g !! (s, o)); eauto.
  discriminate.
Qed.

Lemma get_rights_nonempty_is_edge g s o :
  get_rights g s o ≠ ∅ → is_Some (graph g !! (s, o)).
Proof.
  unfold get_rights, _normalize_edge. destruct (graph g !! (s, o)); eauto.
  simpl. congruence.
Qed.

(** ** add_right and the loops built on it *)

Lemma index_add_lookup k x idx k' :
  default ∅ (index_add k x idx !! k')
  = if decide (k = k') then {[x]} ∪ default ∅ (idx !! k) else default ∅ (idx !! k').
Proof.
  unfold index_add. rewrite lookup_insert. by repeat case_decide; subst.
Qed.

Lemma index_add_idem k x idx :
  index_add k x (index_add k x idx) = index_add k x idx.
Proof.
  unfold index_add. rewrite lookup_insert_eq, insert_insert_eq. simpl.
  f_equal. set_solver.
Qed.

Lemma get_rights_add_right g s o r s' o' :
  get_rights (add_right g s o r) s' o'
  = if decide ((s, o) = (s', o')) then {[r]} ∪ get_rights g s o
    else get_rights g s' o'.
Proof.
  unfold get_rights, add_right, _normalize_edge. simpl.
  rewrite lookup_insert. by repeat case_decide.
Qed.

Lemma add_right_add_set g s o r : add_right g s o r = add_set g s o {[r]}.
Proof. reflexivity. Qed.

Lemma add_right_after_add_set g s o r rs :
  add_right (add_set g s o rs) s o r = add_set g s o ({[r]} ∪ rs).
Proof.
  unfold add_right, add_set, get_rights, _normalize_edge. simpl.
  rewrite lookup_insert_eq, insert_insert_eq, !index_add_idem. simpl.
  f_equal. f_equal. set_solver.
Qed.

Lemma add_rights_from_add_set g s o rs l :
  add_rights (add_set g s o rs) s o l = add_set g s o (list_to_set l ∪ rs).
Proof.
  revert rs. induction l as [|r l IH]; intros rs; simpl.
  - f_equal. set_solver.
  - unfold add_rights in *. simpl. rewrite add_right_after_add_set, IH.
    f_equal. set_solver.
Qed.

(** A non-empty loop of [add_right] on one edge adds exactly the listed
    rights, whatever the order of the list. *)
Lemma add_rights_closed g s o l :
  l ≠ [] → add_rights g s o l = add_set g s o (list_to_set l).
Proof.
  destruct l as [|r l]; [done | intros _].
  change (add_rights g s o (r :: l)) with (add_rights (add_right g s o r) s o l).
  rewrite add_right_add_set, add_rights_from_add_set. f_equal. set_solver.
Qed.

Lemma add_rights_elements g s o (rs : gset AccessRight) :
  add_rights g s o (elements rs) = if decide (rs = ∅) then g else add_set g s o rs.
Proof.
  case_decide as Hrs.
  - subst. by rewrite elements_empty.
  - rewrite add_rights_closed.
    + by rewrite list_to_set_elements_L.
    + by intros ?%elements_empty_inv%leibniz_equiv.
Qed.

Lemma get_rights_add_set g s o rs s' o' :
  get_rights (add_set g s o rs) s' o'
  = if decide ((s, o) = (s', o')) then rs ∪ get_rights g s o
    else get_rights g s' o'.
Proof.
  unfold get_rights at 1. unfold add_set, _normalize_edge. simpl.
  rewrite lookup_insert. by repeat case_decide.
Qed.

Lemma size_pos_nonempty (rs : gset AccessRight) :
  bool_decide (0 < size rs) = bool_decide (rs ≠ ∅).
Proof.
  apply bool_decide_ext.
  pose proof (size_non_empty_iff rs) as H. unfold_leibniz.
  split; [intros ?; apply H; lia | intros ?%H; lia].
Qed.

(** [take] and [grant] in closed form. *)
Lemma take_unfold g subject source target R :
  take g subject source target R
  = if has_right g subject source TAKE
    then if decide (R ∩ get_rights g source target = ∅) then (false, g)
         else (true, add_set g subject target (R ∩ get_rights g source target))
    else (false, g).
Proof.
  unfold take. destruct (has_right g subject source TAKE); simpl; [|done].
  case_decide as Hsrc.
  - rewrite Hsrc. rewrite decide_True by set_solver. done.
  - rewrite add_rights_elements, size_pos_nonempty.
    case_decide as Hi.
    + by rewrite bool_decide_eq_false_2 by (by intros []).
    + by rewrite bool_decide_eq_true_2.
Qed.

Lemma grant_unfold g subject source target R :
  grant g subject source target R
  = if has_right g subject source GRANT
    then if decide (R ∩ get_rights g subject source = ∅) then (false, g)
         else (true, add_set g target source (R ∩ get_rights g subject source))
    else (false, g).
Proof.
  unfold grant. destruct (has_right g subject source GRANT); simpl; [|done].
  case_decide as Hsrc.
  - rewrite Hsrc. rewrite decide_True by set_solver. done.
  - rewrite add_rights_elements, size_pos_nonempty.
    case_decide as Hi.
    + by rewrite bool_decide_eq_false_2 by (by intros []).
    + by rewrite bool_decide_eq_true_2.
Qed.

(** C10: calling [add_right] twice with the same arguments gives the same
    right-set on the edge, and the same whole graph (edge map and both
    indices), as calling it once. *)
Theorem add_right_idempotent g s o r :
  get_rights (add_right (add_right g s o r) s o r) s o
  = get_rights (add_right g s o r) s o
  ∧ add_right (add_right g s o r) s o r = add_right g s o r.
Proof.
  assert (add_right (add_right g s o r) s o r = add_right g s o r) as Heq.
  { rewrite (add_right_add_set g), add_right_after_add_set.
    f_equal. set_solver. }
  by rewrite Heq.
Qed.

(** ** take, grant, create *)

(** C4: [take] returns true exactly when the subject holds TAKE on the
    source and the requested rights meet the rights the source holds on the
    target; on success the subject's rights on the target grow by exactly
    that pre-call intersection (so what is gained is a subset of it) and no
    other edge changes; on a false return the graph is unchanged. *)
Theorem take_correct g subject source target R :
  let inter := R ∩ get_rights g source target in
  let result := take g subject source target R in
  (result.1 = true ↔ has_right g subject source TAKE = true ∧ inter ≠ ∅)
  ∧ (result.1 = true →
       get_rights result.2 subject target = get_rights g subject target ∪ inter
       ∧ get_rights result.2 subject target ∖ get_rights g subject target ⊆ inter
       ∧ ∀ s o, (s, o) ≠ (subject, target) →
           graph result.2 !! (s, o) = graph g !! (s, o))
  ∧ (result.1 = false → result.2 = g).
Proof.
  simpl. rewrite take_unfold.
  destruct (has_right g subject source TAKE); simpl.
  - case_decide as Hi; simpl.
    + repeat split; try done. by intros [_ ?].
    + repeat split; try done.
      * rewrite get_rights_add_set, decide_True by done. set_solver.
      * rewrite get_rights_add_set, decide_True by done. set_solver.
      * intros s o Hne. by rewrite lookup_insert_ne.
  - repeat split; try done. by intros [? _].
Qed.

(** Grant never exceeds the subject's own holding: [grant] returns true
    exactly when the subject holds GRANT on the source and holds at least
    one of the requested rights on it; on success the target subject's
    rights on the source grow by exactly the requested rights the subject
    holds there, and no other edge changes; on a false return the graph is
    unchanged. *)
Theorem grant_correct g subject source target R :
  let inter := R ∩ get_rights g subject source in
  let result := grant g subject source target R in
  (result.1 = true ↔ has_right g subject source GRANT = true ∧ inter ≠ ∅)
  ∧ (result.1 = true →
       get_rights result.2 target source = get_rights g target source ∪ inter
       ∧ get_rights result.2 target source ∖ get_rights g target source
         ⊆ get_rights g subject source ∩ R
       ∧ ∀ s o, (s, o) ≠ (target, source) →
           graph result.2 !! (s, o) = graph g !! (s, o))
  ∧ (result.1 = false → result.2 = g).
Proof.
  simpl. rewrite grant_unfold.
  destruct (has_right g subject source GRANT); simpl.
  - case_decide as Hi; simpl.
    + repeat split; try done. by intros [_ ?].
    + repeat split; try done.
      * rewrite get_rights_add_set, decide_True by done. set_solver.
      * rewrite get_rights_add_set, decide_True by done. set_solver.
      * intros s o Hne. by rewrite lookup_insert_ne.
  - repeat split; try done. by intros [? _].
Qed.

(** C5: when the precondition of [take] or of [grant] fails (the TAKE or
    GRANT right is missing, or none of the requested rights is held) the
    call returns false and the graph is the same; each call either changes
    nothing or adds the whole intersection; a subject that holds only READ
    on file2 cannot grant WRITE on it: [grant] returns false and the other
    subject's WRITE on file2 is as before. *)
Theorem precondition_failure_no_change g subject source target R :
  (has_right g subject source TAKE = false
   ∨ R ∩ get_rights g source target = ∅ →
     take g subject source target R = (false, g))
  ∧ (has_right g subject source GRANT = false
     ∨ R ∩ get_rights g subject source = ∅ →
       grant g subject source target R = (false, g))
  ∧ (take g subject source target R = (false, g)
     ∨ take g subject source target R
       = (true, add_set g subject target (R ∩ get_rights g source target)))
  ∧ (grant g subject source target R = (false, g)
     ∨ grant g subject source target R
       = (true, add_set g target source (R ∩ get_rights g subject source)))
  ∧ (∀ file2 other,
       get_rights g subject file2 = {[READ]} →
       grant g subject file2 other {[WRITE]} = (false, g)
       ∧ (has_right g other file2 WRITE = false →
          has_right (grant g subject file2 other {[WRITE]}).2 other file2 WRITE
          = false)).
Proof.
  rewrite take_unfold, grant_unfold. split_and!.
  - intros [-> | Hi]; [done |].
    destruct (has_right g subject source TAKE); [|done]. by rewrite decide_True.
  - intros [-> | Hi]; [done |].
    destruct (has_right g subject source GRANT); [|done]. by rewrite decide_True.
  - destruct (has_right g subject source TAKE); [|by left].
    case_decide; [by left | by right].
  - destruct (has_right g subject source GRANT); [|by left].
    case_decide; [by left | by right].
  - intros file2 other Hread.
    assert (grant g subject file2 other {[WRITE]} = (false, g)) as ->; [|done].
    rewrite grant_unfold.
    assert (has_right g subject file2 GRANT = false) as ->; [|done].
    apply has_right_false. rewrite Hread. set_solver.
Qed.

(** C6, as stated, fails on an edge that already carries a right: [create]
    adds to the right-set, it does not replace it. *)
Lemma create_keeps_old_rights :
  let g := add_right empty_graph "s" "o" READ in
  create g "s" "o" (Some {[WRITE]}) = (true, add_right g "s" "o" WRITE)
  ∧ get_rights (create g "s" "o" (Some {[WRITE]})).2 "s" "o" = {[READ; WRITE]}
  ∧ get_rights (create g "s" "o" (Some {[WRITE]})).2 "s" "o" ≠ {[WRITE]}.
Proof.
  simpl. split; [by vm_compute |]. split; [by vm_compute |].
  intros Heq. assert (READ ∈ ({[WRITE]} : gset AccessRight)) as Hin.
  { rewrite <- Heq. by vm_compute. }
  set_solver.
Qed.

(** C6, amended: [create] returns true and afterwards the right-set of the
    edge is the one it had before together with the requested rights (all
    six when the argument is omitted); on an edge that did not exist before
    it is exactly the requested set. *)
Theorem create_adds_requested g s o rights :
  let R := default ALL_RIGHTS rights in
  (create g s o rights).1 = true
  ∧ get_rights (create g s o rights).2 s o = get_rights g s o ∪ R
  ∧ (get_rights g s o = ∅ → get_rights (create g s o rights).2 s o = R)
  ∧ (∀ r : AccessRight, r ∈ ALL_RIGHTS).
Proof.
  cbv zeta.
  assert (get_rights (create g s o rights).2 s o
          = get_rights g s o ∪ default ALL_RIGHTS rights) as Heq.
  { unfold create. simpl.
    replace (match rights with Some r => r | None => ALL_RIGHTS end)
      with (default ALL_RIGHTS rights) by (by destruct rights).
    rewrite add_rights_elements. case_decide as He.
    - rewrite He. set_solver.
    - rewrite get_rights_add_set, decide_True by done. set_solver. }
  repeat split; try done.
  - intros He. rewrite Heq, He. set_solver.
  - intros []; unfold ALL_RIGHTS; set_solver.
Qed.

(** ** The invariants along a run *)

Lemma edge_iff_rights g s o :
  edges_nonempty g → (is_Some (graph g !! (s, o)) ↔ get_rights g s o ≠ ∅).
Proof.
  intros Hne. split; [|apply get_rights_nonempty_is_edge].
  intros [rs Hrs]. unfold get_rights, _normalize_edge. rewrite Hrs. simpl. eauto.
Qed.

Lemma get_subject_objects_add_set g s o rs s' :
  get_subject_objects (add_set g s o rs) s'
  = if decide (s = s') then {[o]} ∪ get_subject_objects g s
    else get_subject_objects g s'.
Proof. apply index_add_lookup. Qed.

Lemma get_object_subjects_add_set g s o rs o' :
  get_object_subjects (add_set g s o rs) o'
  = if decide (o = o') then {[s]} ∪ get_object_subjects g o
    else get_object_subjects g o'.
Proof. apply index_add_lookup. Qed.

Section add_set_invariants.
Context (g : AccessGraph) (s o : string) (rs : gset AccessRight).

Lemma add_set_edge s' o' :
  is_Some (graph (add_set g s o rs) !! (s', o'))
  ↔ (s, o) = (s', o') ∨ is_Some (graph g !! (s', o')).
Proof.
  unfold add_set. simpl. rewrite lookup_insert_is_Some.
  destruct (decide ((s, o) = (s', o'))); naive_solver.
Qed.

Lemma add_set_index_covers : index_covers g → index_covers (add_set g s o rs).
Proof.
  intros Hc s' o' [Heq | He]%add_set_edge.
  - injection Heq as <- <-.
    rewrite get_subject_objects_add_set, get_object_subjects_add_set.
    rewrite !decide_True by done. set_solver.
  - destruct (Hc _ _ He).
    rewrite get_subject_objects_add_set, get_object_subjects_add_set.
    repeat case_decide; subst; set_solver.
Qed.

Lemma add_set_index_sound : index_sound g → index_sound (add_set g s o rs).
Proof.
  intros Hs s' o' Hin. apply add_set_edge.
  rewrite get_subject_objects_add_set, get_object_subjects_add_set in Hin.
  destruct (decide ((s, o) = (s', o'))) as [|Hne]; [by left | right].
  apply Hs. repeat case_decide; subst; set_solver.
Qed.

Lemma add_set_edges_nonempty :
  rs ≠ ∅ → edges_nonempty g → edges_nonempty (add_set g s o rs).
Proof.
  intros Hrs Hne e rs'. unfold add_set. simpl.
  rewrite lookup_insert_Some. intros [[_ <-] | [_ He]]; [set_solver | eauto].
Qed.
End add_set_invariants.

(** The state [remove_right] returns, read through the queries. *)
Lemma remove_right_spec g s o r :
  index_covers g → edges_nonempty g →
  ∃ g', remove_right g s o r = Some g'
    ∧ edges_nonempty g'
    ∧ (∀ s' o', get_rights g' s' o'
         = if decide ((s, o) = (s', o')) then get_rights g s o ∖ {[r]}
           else get_rights g s' o')
    ∧ (∀ s', get_subject_objects g' s'
         = if decide (s = s' ∧ get_rights g s o ≠ ∅
                      ∧ get_rights g s o ∖ {[r]} = ∅)
           then get_subject_objects g s ∖ {[o]}
           else get_subject_objects g s')
    ∧ (∀ o', get_object_subjects g' o'
         = if decide (o = o' ∧ get_rights g s o ≠ ∅
                      ∧ get_rights g s o ∖ {[r]} = ∅)
           then get_object_subjects g o ∖ {[s]}
           else get_object_subjects g o').
Proof.
  intros Hc Hne. unfold remove_right, _normalize_edge.
  destruct (graph g !! (s, o)) as [rs|] eqn:Hrs.
  - assert (get_rights g s o = rs) as Hgr
      by (unfold get_rights, _normalize_edge; by rewrite Hrs).
    assert (rs ≠ ∅) as Hrs0 by eauto.
    destruct (Hc s o) as [Hso Hos]; [eauto |].
    unfold get_subject_objects in Hso. unfold get_object_subjects in Hos.
    destruct (subject_edges g !! s) as [xs|] eqn:Hxs; [|set_solver].
    destruct (object_edges g !! o) as [ys|] eqn:Hys; [|set_solver].
    case_decide as Hempty.
    + unfold index_discard. rewrite Hxs, Hys. simpl.
      eexists; split; [done |]. rewrite Hgr. repeat split.
      * intros e rs'. simpl. rewrite lookup_delete_Some. intros [_ ?]. eauto.
      * intros s' o'. unfold get_rights, _normalize_edge. simpl.
        rewrite lookup_delete. case_decide as Hd; simpl; by rewrite ?Hempty.
      * intros s'. unfold get_subject_objects. simpl.
        rewrite lookup_insert. case_decide as Hd.
        -- subst s'. rewrite decide_True by done. by rewrite Hxs.
        -- rewrite decide_False by naive_solver. done.
      * intros o'. unfold get_object_subjects. simpl.
        rewrite lookup_insert. case_decide as Hd.
        -- subst o'. rewrite decide_True by done. by rewrite Hys.
        -- rewrite decide_False by naive_solver. done.
    + eexists; split; [done |]. rewrite Hgr. repeat split.
      * intros e rs'. simpl. rewrite lookup_insert_Some.
        intros [[_ <-] | [_ ?]]; eauto.
      * intros s' o'. unfold get_rights, _normalize_edge. simpl.
        rewrite lookup_insert. by repeat case_decide.
      * intros s'. rewrite decide_False by naive_solver. done.
      * intros o'. rewrite decide_False by naive_solver. done.
  - assert (get_rights g s o = ∅) as Hgr
      by (unfold get_rights, _normalize_edge; by rewrite Hrs).
    eexists; split; [done |]. rewrite Hgr. repeat split; [done | | |].
    + intros s' o'. case_decide as Hd; [|done].
      injection Hd as <- <-. rewrite Hgr. set_solver.
    + intros s'. rewrite decide_False by naive_solver. done.
    + intros o'. rewrite decide_False by naive_solver. done.
Qed.

Lemma remove_right_invariants g s o r :
  index_covers g → edges_nonempty g →
  ∃ g', remove_right g s o r = Some g'
    ∧ index_covers g' ∧ edges_nonempty g'
    ∧ (index_sound g → index_sound g').
Proof.
  intros Hc Hne.
  destruct (remove_right_spec g s o r Hc Hne) as (g' & Hg' & Hne' & Hr & Hs & Ho).
  exists g'. split; [done |]. split; [| split; [done |]].
  - intros s' o' He. apply (edge_iff_rights _ _ _ Hne') in He.
    rewrite Hr in He.
    assert (get_rights g s' o' ≠ ∅) as He'.
    { case_decide as Hd; [injection Hd as <- <-|]; set_solver. }
    apply (edge_iff_rights _ _ _ Hne), Hc in He' as [??].
    rewrite Hs, Ho.
    repeat case_decide; try done; destruct_and?; subst;
      try (rewrite decide_True in He by done); set_solver.
  - intros Hsound s' o' Hin. apply (edge_iff_rights _ _ _ Hne').
    rewrite Hs, Ho in Hin. rewrite Hr.
    assert (get_rights g s' o' ≠ ∅) as He.
    { apply (edge_iff_rights _ _ _ Hne), Hsound.
      repeat case_decide; destruct_and?; subst; set_solver. }
    destruct (decide ((s, o) = (s', o'))) as [Hd|Hd]; [|done].
    injection Hd as <- <-.
    intros Hem. rewrite !decide_True in Hin by done. set_solver.
Qed.

Lemma add_rights_invariants g s o l :
  (index_covers g → index_covers (add_rights g s o l))
  ∧ (edges_nonempty g → edges_nonempty (add_rights g s o l))
  ∧ (index_sound g → index_sound (add_rights g s o l)).
Proof.
  unfold add_rights. revert g. induction l as [|r l IH]; intros g; [done |].
  simpl. destruct (IH (add_right g s o r)) as (IHc & IHn & IHs).
  rewrite add_right_add_set in *. split_and!; intros Hg.
  - by apply IHc, add_set_index_covers.
  - apply IHn, add_set_edges_nonempty; [set_solver | done].
  - by apply IHs, add_set_index_sound.
Qed.

Lemma take_result g subject source target R :
  (take g subject source target R).2 = g
  ∨ ∃ l, (take g subject source target R).2 = add_rights g subject target l.
Proof.
  unfold take. destruct (negb _); [by left |]. case_decide; [by left |].
  right. eauto.
Qed.

Lemma grant_result g subject source target R :
  (grant g subject source target R).2 = g
  ∨ ∃ l, (grant g subject source target R).2 = add_rights g target source l.
Proof.
  unfold grant. destruct (negb _); [by left |]. case_decide; [by left |].
  right. eauto.
Qed.

Lemma remove_rights_invariants g s o l :
  index_covers g → edges_nonempty g →
  ∃ g', remove_rights g s o l = Some g'
    ∧ index_covers g' ∧ edges_nonempty g'
    ∧ (index_sound g → index_sound g').
Proof.
  revert g. induction l as [|r l IH]; intros g Hc Hn; simpl.
  - eauto.
  - destruct (remove_right_invariants g s o r Hc Hn) as (g1 & -> & Hc1 & Hn1 & Hs1).
    simpl. destruct (IH g1 Hc1 Hn1) as (g2 & -> & Hc2 & Hn2 & Hs2).
    exists g2. split_and!; eauto.
Qed.

Lemma foldl_delete_lookup (l : list (string * string))
    (m : gmap (string * string) (gset AccessRight)) e :
  foldl (λ m edge, delete edge m) m l !! e
  = if decide (e ∈ l) then None else m !! e.
Proof.
  revert m. induction l as [|e' l IH]; intros m; simpl.
  - done.
  - rewrite IH. destruct (decide (e ∈ l)) as [Hin | Hin].
    + by rewrite decide_True by set_solver.
    + rewrite lookup_delete. destruct (decide (e' = e)) as [-> | Hne].
      * by rewrite decide_True by set_solver.
      * by rewrite decide_False by set_solver.
Qed.

(** The bulk deletion drops exactly the edges into [object_id]. *)
Lemma delete_object_edges_lookup g object_id s o :
  graph (delete_object_edges g object_id) !! (s, o)
  = if decide (o = object_id) then None else graph g !! (s, o).
Proof.
  unfold delete_object_edges. simpl. rewrite foldl_delete_lookup.
  destruct (decide (o = object_id)) as [-> | Hne].
  - destruct (graph g !! (s, object_id)) as [rs|] eqn:Hrs.
    + rewrite decide_True; [done |].
      apply list_elem_of_fmap. exists ((s, object_id), rs). split; [done |].
      apply list_elem_of_filter. split; [done |]. by apply elem_of_map_to_list.
    + by case_decide.
  - rewrite decide_False; [done |].
    intros ([e rs] & He & [Hf _]%list_elem_of_filter)%list_elem_of_fmap.
    simpl in *. subst e. done.
Qed.

Lemma delete_object_edges_invariants g object_id :
  (index_covers g → index_covers (delete_object_edges g object_id))
  ∧ (edges_nonempty g → edges_nonempty (delete_object_edges g object_id)).
Proof.
  split.
  - intros Hc s o. rewrite delete_object_edges_lookup.
    case_decide; [by intros [? ?] |]. apply Hc.
  - intros Hn [s o] rs. rewrite delete_object_edges_lookup.
    case_decide; [done |]. apply Hn.
Qed.

Lemma apply_op_invariants g op :
  index_covers g → edges_nonempty g →
  ∃ g', apply_op g op = Some g'
    ∧ index_covers g' ∧ edges_nonempty g'
    ∧ (core_op op = true → index_sound g → index_sound g').
Proof.
  intros Hc Hn. destruct op as [s o r|s o r|s src tgt rs|s src tgt rs|s o rs|s o rs|o];
    simpl.
  - eexists; split; [done |]. rewrite add_right_add_set.
    split_and!; [by apply add_set_index_covers
                | apply add_set_edges_nonempty; [set_solver | done]
                | intros _; by apply add_set_index_sound].
  - destruct (remove_right_invariants g s o r Hc Hn) as (g' & -> & ? & ? & ?).
    eauto 10.
  - eexists; split; [done |].
    destruct (take_result g s src tgt rs) as [-> | [l ->]]; [eauto |].
    destruct (add_rights_invariants g s tgt l) as (? & ? & ?). eauto.
  - eexists; split; [done |].
    destruct (grant_result g s src tgt rs) as [-> | [l ->]]; [eauto |].
    destruct (add_rights_invariants g tgt src l) as (? & ? & ?). eauto.
  - eexists; split; [done |]. unfold create. simpl.
    match goal with |- context [add_rights g s o ?l] =>
      destruct (add_rights_invariants g s o l) as (? & ? & ?) end. eauto.
  - destruct (remove_rights_invariants g s o (elements rs) Hc Hn)
      as (g' & Hg' & ? & ? & ?).
    unfold remove. rewrite Hg'. eauto 10.
  - eexists; split; [done |].
    destruct (delete_object_edges_invariants g o) as [? ?].
    split_and!; [eauto | eauto | done].
Qed.

Lemma empty_graph_invariants :
  index_covers empty_graph ∧ edges_nonempty empty_graph ∧ index_sound empty_graph.
Proof.
  split_and!.
  - intros s o [rs Hrs]. simpl in Hrs. by rewrite lookup_empty in Hrs.
  - intros e rs Hrs. simpl in Hrs. by rewrite lookup_empty in Hrs.
  - intros s o. unfold get_subject_objects, get_object_subjects. simpl.
    rewrite !lookup_empty. simpl. set_solver.
Qed.

(** A run from a graph that satisfies the invariants does not raise, and
    the graph it ends in satisfies them; when the run uses the primitives of
    the graph only, the indices hold no stale entry either. *)
Lemma run_invariants ops : ∀ g,
  index_covers g → edges_nonempty g →
  ∃ g', run g ops = Some g'
    ∧ index_covers g' ∧ edges_nonempty g'
    ∧ (forallb core_op ops = true → index_sound g → index_sound g').
Proof.
  induction ops as [|op ops IH]; intros g Hc Hn; simpl.
  - eauto.
  - destruct (apply_op_invariants g op Hc Hn) as (g1 & -> & Hc1 & Hn1 & Hs1).
    simpl. destruct (IH g1 Hc1 Hn1) as (g2 & -> & Hc2 & Hn2 & Hs2).
    exists g2. split_and!; try done.
    intros [? ?]%andb_prop ?. eauto.
Qed.

Lemma reachable_invariants ops g :
  run empty_graph ops = Some g → index_covers g ∧ edges_nonempty g.
Proof.
  destruct empty_graph_invariants as (Hc & Hn & _).
  destruct (run_invariants ops empty_graph Hc Hn) as (g' & -> & ? & ? & _).
  by intros [= <-].
Qed.

Lemma invariants_index_mirror g :
  index_covers g → edges_nonempty g → index_sound g → index_mirror g.
Proof.
  intros Hc Hn Hs s o.
  rewrite <- (edge_iff_rights g s o Hn). split; split.
  - intros ?. apply Hs. by left.
  - intros ?. by apply Hc.
  - intros ?. apply Hs. by right.
  - intros ?. by apply Hc.
Qed.

(** The primitives of the graph keep the indices an exact mirror of the edge
    map: after any run of [add_right], [remove_right], [take], [grant],
    [create] and [remove] from the empty graph. *)
Lemma core_run_index_mirror ops g :
  forallb core_op ops = true → run empty_graph ops = Some g → index_mirror g.
Proof.
  intros Hcore Hrun.
  destruct empty_graph_invariants as (Hc & Hn & Hs).
  destruct (run_invariants ops empty_graph Hc Hn) as (g' & Hg' & ? & ? & ?).
  rewrite Hrun in Hg'. injection Hg' as <-.
  apply invariants_index_mirror; eauto.
Qed.

(** Runs of the graph's own operations keep the mirror: in every graph
    that a sequence of [add_right], [remove_right], [take], [grant],
    [create] and [remove] produces from the empty graph, an object is listed
    for a subject, and the subject for the object, exactly when the edge
    carries a right; and a sequence without [remove] never raises. *)
Theorem core_operations_keep_index_mirror ops :
  forallb core_op ops = true →
  (∀ g, run empty_graph ops = Some g → index_mirror g)
  ∧ (forallb single_right_op ops = true → ∃ g, run empty_graph ops = Some g).
Proof.
  intros Hcore. split.
  - intros g. by apply core_run_index_mirror.
  - intros _. destruct empty_graph_invariants as (Hc & Hn & _).
    destruct (run_invariants ops empty_graph Hc Hn) as (g & Hg & _). eauto.
Qed.

(** A run that creates, grants, adds, takes and removes a right. *)
Lemma core_operations_keep_index_mirror_witness :
  let ops := [OpCreate "alice" "file1" None;
              OpGrant "alice" "file1" "bob" {[READ; WRITE]};
              OpAddRight "carol" "alice" TAKE;
              OpTake "carol" "alice" "file1" {[READ]};
              OpRemoveRight "bob" "file1" READ;
              OpRemoveRight "carol" "file1" READ] in
  (∀ g, run empty_graph ops = Some g → index_mirror g)
  ∧ (forallb single_right_op ops = true → ∃ g, run empty_graph ops = Some g).
Proof.
  apply (core_operations_keep_index_mirror
           [OpCreate "alice" "file1" None;
            OpGrant "alice" "file1" "bob" {[READ; WRITE]};
            OpAddRight "carol" "alice" TAKE;
            OpTake "carol" "alice" "file1" {[READ]};
            OpRemoveRight "bob" "file1" READ;
            OpRemoveRight "carol" "file1" READ]).
  vm_compute; reflexivity.
Defined.

(** C1 fails on the code at the bulk deletion: alice creates a file and then
    deletes it.  [delete_object] succeeds and removes the edge from the edge
    map, but both indices still list it: the graph that mirrored its edge
    map before the call does not mirror it afterwards. *)
Theorem delete_object_leaves_stale_index :
  let m1 := (Operations.create_file Operations.empty_module
               "alice" "report" None "id1").2 in
  let g2 := delete_object_edges (Operations.access_graph m1) "id1" in
  index_mirror (Operations.access_graph m1)
  ∧ Operations.delete_object m1 "alice" "id1"
    = Some (true, Operations.mkOperationsModule Objects.empty_identifier g2 ∅)
  ∧ get_rights g2 "alice" "id1" = ∅
  ∧ "id1" ∈ get_subject_objects g2 "alice"
  ∧ "alice" ∈ get_object_subjects g2 "id1"
  ∧ ¬ index_mirror g2.
Proof.
  cbv zeta.
  assert (get_rights
            (delete_object_edges
               (Operations.access_graph
                  (Operations.create_file Operations.empty_module
                     "alice" "report" None "id1").2) "id1")
            "alice" "id1" = ∅) as Hrights by (vm_compute; reflexivity).
  assert ("id1" ∈ get_subject_objects
            (delete_object_edges
               (Operations.access_graph
                  (Operations.create_file Operations.empty_module
                     "alice" "report" None "id1").2) "id1") "alice") as Hin
    by (vm_compute; reflexivity).
  split; [|split; [|split; [|split; [|split]]]].
  - apply (core_run_index_mirror [OpCreate "alice" "id1" None]);
      vm_compute; reflexivity.
  - vm_compute; reflexivity.
  - exact Hrights.
  - exact Hin.
  - vm_compute; reflexivity.
  - intros Hm. destruct (Hm "alice" "id1") as [[Hso _] _].
    apply Hso in Hin. exact (Hin Hrights).
Qed.

(** ** remove_right *)

Lemma remove_right_noop g s o r :
  edges_nonempty g → has_right g s o r = false → remove_right g s o r = Some g.
Proof.
  intros Hn Hr. unfold remove_right, has_right in *.
  destruct (graph g !! _normalize_edge s o) as [rs|] eqn:Hrs; [|done].
  apply bool_decide_eq_false in Hr.
  assert (rs ∖ {[r]} = rs) as -> by set_solver.
  rewrite decide_False by eauto. rewrite insert_id by done. by destruct g.
Qed.

Lemma remove_rights_clears l : ∀ g s o,
  index_covers g → edges_nonempty g →
  get_rights g s o ≠ ∅
    ∨ ((o ∉ get_subject_objects g s) ∧ (s ∉ get_object_subjects g o)) →
  get_rights g s o ⊆ list_to_set l →
  ∃ g', remove_rights g s o l = Some g'
    ∧ get_rights g' s o = ∅
    ∧ (o ∉ get_subject_objects g' s)
    ∧ (s ∉ get_object_subjects g' o).
Proof.
  induction l as [|r l IH]; intros g s o Hc Hn Hcase Hsub; simpl.
  - exists g. assert (get_rights g s o = ∅) as Hem by set_solver.
    destruct Hcase as [? | [? ?]]; done.
  - destruct (remove_right_spec g s o r Hc Hn) as (g1 & Hg1 & Hn1 & Hr & Hs & Ho).
    destruct (remove_right_invariants g s o r Hc Hn) as (g1' & Hg1' & Hc1 & _).
    rewrite Hg1 in Hg1'. injection Hg1' as <-.
    rewrite Hg1. simpl. apply IH; try done.
    + rewrite Hr, Hs, Ho. rewrite decide_True by done.
      destruct (decide (get_rights g s o ∖ {[r]} = ∅)) as [Hem | Hem];
        [right | by left].
      destruct (decide (get_rights g s o = ∅)) as [Hem' | Hem'].
      * rewrite !decide_False by naive_solver.
        destruct Hcase as [? | ?]; done.
      * rewrite !decide_True by done. set_solver.
    + rewrite Hr, decide_True by done. set_solver.
Qed.

(** C8: once every right of an edge has been removed with [remove_right],
    the right-set of the pair is empty, the pair is no longer a key of the
    edge map (the edge is deleted entirely, not left with an empty set) and
    neither index lists the pair; [remove_right] on an edge that does not
    exist, or for a right the edge does not carry, returns the graph
    unchanged and raises nothing.  [g] is a graph reached from the empty one
    in which the edge exists, or any graph reached through the operations
    of the graph itself; [l] is any list of removals that covers the rights
    of the edge. *)
Theorem remove_right_cleans_edge ops g s o l :
  run empty_graph ops = Some g →
  get_rights g s o ≠ ∅ ∨ forallb core_op ops = true →
  get_rights g s o ⊆ list_to_set l →
  (∃ g', remove_rights g s o l = Some g'
     ∧ get_rights g' s o = ∅
     ∧ graph g' !! (s, o) = None
     ∧ (o ∉ get_subject_objects g' s)
     ∧ (s ∉ get_object_subjects g' o))
  ∧ (∀ s' o' r, has_right g s' o' r = false → remove_right g s' o' r = Some g).
Proof.
  intros Hrun Hcase Hsub.
  destruct (reachable_invariants ops g Hrun) as [Hc Hn]. split.
  - destruct (remove_rights_clears l g s o Hc Hn) as (g' & Hg' & Hem & Hso & Hos);
      [| done |].
    { destruct (decide (get_rights g s o = ∅)) as [Hem | Hem]; [right | by left].
      destruct Hcase as [? | Hcore]; [done |].
      destruct (core_run_index_mirror ops g Hcore Hrun s o) as [-> ->]. tauto. }
    destruct (remove_rights_invariants g s o l Hc Hn) as (g'' & Hg'' & _ & Hn' & _).
    rewrite Hg' in Hg''. injection Hg'' as <-.
    exists g'. split_and!; try done.
    destruct (graph g' !! (s, o)) as [rs|] eqn:Hrs; [|done].
    exfalso. apply (Hn' _ _ Hrs).
    unfold get_rights, _normalize_edge in Hem. by rewrite Hrs in Hem.
  - intros s' o' r. by apply remove_right_noop.
Qed.

(** The edge s→o with READ and WRITE, emptied by two removals. *)
Lemma remove_right_cleans_edge_witness :
  let g := add_right (add_right empty_graph "s" "o" READ) "s" "o" WRITE in
  (∃ g', remove_rights g "s" "o" [WRITE; READ] = Some g'
     ∧ get_rights g' "s" "o" = ∅
     ∧ graph g' !! ("s", "o") = None
     ∧ ("o" ∉ get_subject_objects g' "s")
     ∧ ("s" ∉ get_object_subjects g' "o"))
  ∧ (∀ s' o' r, has_right g s' o' r = false → remove_right g s' o' r = Some g).
Proof.
  apply (remove_right_cleans_edge
           [OpAddRight "s" "o" READ; OpAddRight "s" "o" WRITE]).
  - vm_compute; reflexivity.
  - left. apply (bool_decide_unpack _); vm_compute; reflexivity.
  - apply (bool_decide_unpack _); vm_compute; reflexivity.
Defined.

(** ** The search *)

Lemma edge_all_nodes g s o :
  is_Some (graph g !! (s, o)) → s ∈ all_nodes g ∧ o ∈ all_nodes g.
Proof.
  intros [rs Hrs]. unfold all_nodes.
  split; apply elem_of_list_to_set, list_elem_of_bind;
    exists ((s, o), rs); (split; [set_solver | by apply elem_of_map_to_list]).
Qed.

Lemma edge_all_objects g s o :
  is_Some (graph g !! (s, o)) → o ∈ all_objects g.
Proof.
  intros [rs Hrs]. unfold all_objects.
  apply elem_of_list_to_set, list_elem_of_fmap.
  exists ((s, o), rs). split; [done | by apply elem_of_map_to_list].
Qed.

Lemma grant_branch_true g target r :
  grant_branch g target r = true → grant_possible g target r.
Proof.
  unfold grant_branch. intros (i & _ & Hi)%existsb_exists.
  apply existsb_exists in Hi as (gs & _ & [? ?]%andb_prop).
  by exists gs, i.
Qed.

Lemma grant_possible_branch g target r :
  index_covers g → grant_possible g target r → grant_branch g target r = true.
Proof.
  intros Hc (gs & i & Hgrant & Hr). unfold grant_branch.
  pose proof (has_right_is_edge _ _ _ _ Hgrant) as He.
  apply existsb_exists. exists i. split.
  - apply list_elem_of_In, elem_of_elements. by eapply edge_all_objects.
  - apply existsb_exists. exists gs. split.
    + apply list_elem_of_In, elem_of_elements. by apply Hc.
    + by rewrite Hgrant, Hr.
Qed.

Section take_branch.
Context (g : AccessGraph) (current target : string) (r : AccessRight).

Lemma take_branch_is_Some rec l :
  (∀ i, i ∈ l → has_right g current i TAKE = true → is_Some (rec i)) →
  is_Some (take_branch rec g current target r l).
Proof.
  induction l as [|i l IH]; intros Hrec; simpl; [eauto |].
  assert (is_Some (take_branch rec g current target r l)) as IH'
    by (apply IH; intros; apply Hrec; set_solver).
  destruct (has_right g current i TAKE) eqn:Ht; simpl; [|done].
  destruct (has_right g i target r); [eauto |].
  destruct (Hrec i) as [[|] ->]; [set_solver | done | eauto | done].
Qed.

Lemma take_branch_mono rec1 rec2 l b :
  (∀ i b, rec1 i = Some b → rec2 i = Some b) →
  take_branch rec1 g current target r l = Some b →
  take_branch rec2 g current target r l = Some b.
Proof.
  intros Hrec. induction l as [|i l IH]; simpl; [done |].
  destruct (negb (has_right g current i TAKE)); [done |].
  destruct (has_right g i target r); [done |].
  destruct (rec1 i) as [[|]|] eqn:H1; [| |done].
  - by rewrite (Hrec _ _ H1).
  - by rewrite (Hrec _ _ H1).
Qed.

(** The loop returns true only through a TAKE edge of the current
    subject: a one-hop take, or a recursive search that returned true. *)
Lemma take_branch_true rec l :
  take_branch rec g current target r l = Some true →
  ∃ i, i ∈ l ∧ has_right g current i TAKE = true
       ∧ (has_right g i target r = true ∨ rec i = Some true).
Proof.
  induction l as [|i l IH]; simpl; [done |].
  destruct (has_right g current i TAKE) eqn:Ht; simpl.
  - destruct (has_right g i target r) eqn:Hr.
    + intros _. exists i. split_and!; [set_solver | done | by left].
    + destruct (rec i) as [[|]|] eqn:Hrec; [| |done].
      * intros _. exists i. split_and!; [set_solver | done | by right].
      * intros (i' & ? & ?)%IH. exists i'. split; [set_solver | done].
  - intros (i' & ? & ?)%IH. exists i'. split; [set_solver | done].
Qed.
End take_branch.

Section dfs.
Context (g : AccessGraph) (target : string) (r : AccessRight).

(** The identifiers of the graph not yet visited: the measure of the
    search.  A recursive call is made only along a TAKE edge of a subject
    that was not visited, and that subject is visited in the call. *)
Lemma unvisited_shrinks current intermediate (visited : gset string) :
  current ∉ visited →
  has_right g current intermediate TAKE = true →
  all_nodes g ∖ ({[current]} ∪ visited) ⊂ all_nodes g ∖ visited.
Proof.
  intros Hv [Hcur _]%has_right_is_edge%edge_all_nodes.
  apply strict_spec_alt. split; [set_solver |].
  intros Heq. assert (current ∈ all_nodes g ∖ visited) as Hin by set_solver.
  rewrite <- Heq in Hin. set_solver.
Qed.

Lemma _dfs_search_is_Some fuel : ∀ current (visited : gset string),
  size (all_nodes g ∖ visited) < fuel →
  is_Some (_dfs_search fuel g current target r visited).
Proof.
  induction fuel as [|fuel IH]; intros current visited Hfuel; [lia |].
  simpl. case_decide as Hv; [eauto |].
  destruct (has_right g current target r); [eauto |].
  match goal with |- context [take_branch ?rec _ _ _ _ ?l] =>
    destruct (take_branch_is_Some g current target r rec l) as [[|] ->] end;
    [| eauto | eauto].
  intros i _ Ht. apply IH.
  pose proof (subset_size _ _ (unvisited_shrinks current i visited Hv Ht)).
  lia.
Qed.

Lemma _dfs_search_mono (fuel : nat) :
  ∀ (fuel' : nat) current (visited : gset string) b,
  (fuel ≤ fuel')%nat →
  _dfs_search fuel g current target r visited = Some b →
  _dfs_search fuel' g current target r visited = Some b.
Proof.
  induction fuel as [|fuel IH]; intros fuel' current visited b Hle; [done |].
  destruct fuel' as [|fuel']; [lia |]. simpl.
  case_decide; [done |].
  destruct (has_right g current target r); [done |].
  match goal with |- context [take_branch ?rec _ _ _ _ ?l] =>
    destruct (take_branch rec g current target r l) as [b1|] eqn:Hb1 end;
    [|done].
  erewrite take_branch_mono; [done | | exact Hb1].
  intros i b2. apply IH. lia.
Qed.

(** Where the grant branch succeeds, a search that starts at a subject
    not yet visited returns true whenever it returns. *)
Lemma _dfs_search_grant fuel current (visited : gset string) b :
  grant_branch g target r = true → current ∉ visited →
  _dfs_search fuel g current target r visited = Some b → b = true.
Proof.
  intros Hg Hv. destruct fuel as [|fuel]; [done |]. simpl.
  rewrite decide_False by done.
  destruct (has_right g current target r); [by intros [= <-] |].
  match goal with |- context [take_branch ?rec _ _ _ _ ?l] =>
    destruct (take_branch rec g current target r l) as [[|]|] end;
    [by intros [= <-] | | done].
  rewrite Hg. by intros [= <-].
Qed.

(** Inside a part of the graph that no edge leaves, with the target
    outside and the grant branch failing, no search returns true. *)
Lemma _dfs_search_disjoint (part : gset string) fuel :
  disjoint_subgraphs g part → target ∉ part →
  grant_branch g target r = false →
  ∀ current (visited : gset string) b,
    current ∈ part →
    _dfs_search fuel g current target r visited = Some b → b = false.
Proof.
  intros Hd Ht Hg. induction fuel as [|fuel IH];
    intros current visited b Hcur; [done |].
  simpl. case_decide; [by intros [= <-] |].
  destruct (has_right g current target r) eqn:Hdirect.
  { apply has_right_is_edge, Hd in Hdirect. tauto. }
  match goal with |- context [take_branch ?rec _ _ _ _ ?l] =>
    destruct (take_branch rec g current target r l) as [[|]|] eqn:Hb end;
    [| rewrite Hg; by intros [= <-] | done].
  apply take_branch_true in Hb as (i & _ & Htake & Hi).
  assert (i ∈ part) as Hipart by (apply has_right_is_edge, Hd in Htake; tauto).
  destruct Hi as [Hi | Hi].
  - apply has_right_is_edge, Hd in Hi. tauto.
  - by apply IH in Hi.
Qed.
End dfs.

Lemma can_access_is_Some g s o r : is_Some (can_access g s o r).
Proof.
  unfold can_access, _find_access_path, search_fuel.
  destruct (has_right g s o r); [eauto |].
  apply _dfs_search_is_Some.
  apply Nat.lt_succ_r, subseteq_size. set_solver.
Qed.

Lemma accessible_loop_spec g s r objs :
  ∃ l, accessible_loop g s r objs = Some l
    ∧ ∀ o, o ∈ l ↔ o ∈ objs ∧ can_access g s o r = Some true.
Proof.
  induction objs as [|o objs (l & IHl & IH)]; simpl.
  - exists []. split; [done |]. set_solver.
  - destruct (can_access_is_Some g s o r) as [b Hb]. rewrite Hb, IHl. simpl.
    destruct b; eexists; (split; [done |]); intros o'.
    + rewrite !elem_of_cons, IH. naive_solver.
    + rewrite elem_of_cons, IH. naive_solver.
Qed.

(** Checking [disjoint_subgraphs] on a given graph: one test per edge. *)
Lemma disjoint_subgraphs_check g (part : gset string) :
  forallb (λ kv, bool_decide (kv.1.1 ∈ part ↔ kv.1.2 ∈ part))
          (map_to_list (graph g)) = true →
  disjoint_subgraphs g part.
Proof.
  intros Hall s o [rs Hrs].
  rewrite forallb_forall in Hall.
  specialize (Hall ((s, o), rs)). simpl in Hall.
  eapply bool_decide_eq_true_1, Hall, list_elem_of_In.
  by apply elem_of_map_to_list.
Qed.

Lemma grant_branch_false g target r :
  index_covers g → grant_branch g target r = false → ¬ grant_possible g target r.
Proof.
  intros Hc Hb Hp. rewrite (grant_possible_branch g target r Hc Hp) in Hb.
  discriminate.
Qed.

(** C9: a right that is held directly is reported as reachable: if
    [has_right] is true then [can_access] (and its alias [check_right])
    returns true. *)
Theorem direct_implies_reachable g s o r :
  has_right g s o r = true →
  can_access g s o r = Some true ∧ check_right g s o r = Some true.
Proof.
  intros Hr. unfold check_right, can_access. by rewrite Hr.
Qed.

(** alice holds READ on file1 directly. *)
Lemma direct_implies_reachable_witness :
  let g := add_right empty_graph "alice" "file1" READ in
  has_right g "alice" "file1" READ = true
  ∧ can_access g "alice" "file1" READ = Some true
  ∧ check_right g "alice" "file1" READ = Some true.
Proof.
  split; [vm_compute; reflexivity |].
  apply (direct_implies_reachable
           (add_right empty_graph "alice" "file1" READ) "alice" "file1" READ).
  vm_compute; reflexivity.
Defined.

(** C7: [can_access] terminates on every graph and query.  The number of
    identifiers of the graph that are not in [visited] bounds the depth of
    the recursion: with more fuel than that the search returns, and more
    fuel never changes what it returns; and the set of unvisited
    identifiers strictly shrinks at every recursive call, which is made
    along a TAKE edge of a subject that was not visited before. *)
Theorem can_access_terminates g subject object r :
  (∃ b, can_access g subject object r = Some b)
  ∧ (∀ (fuel : nat) current (visited : gset string),
       size (all_nodes g ∖ visited) < fuel →
       ∃ b, _dfs_search fuel g current object r visited = Some b
            ∧ ∀ fuel' : nat, (fuel ≤ fuel')%nat →
                _dfs_search fuel' g current object r visited = Some b)
  ∧ (∀ current intermediate (visited : gset string),
       current ∉ visited →
       has_right g current intermediate TAKE = true →
       all_nodes g ∖ ({[current]} ∪ visited) ⊂ all_nodes g ∖ visited
       ∧ size (all_nodes g ∖ ({[current]} ∪ visited))
         < size (all_nodes g ∖ visited)).
Proof.
  split_and!.
  - apply can_access_is_Some.
  - intros fuel current visited Hfuel.
    destruct (_dfs_search_is_Some g object r fuel current visited Hfuel)
      as [b Hb].
    exists b. split; [done |]. intros fuel' Hle.
    by apply (_dfs_search_mono g object r fuel).
  - intros current intermediate visited Hv Ht.
    pose proof (unvisited_shrinks g current intermediate visited Hv Ht) as Hs.
    split; [done | by apply subset_size].
Qed.

(** C3: in every graph reached from the empty one, if some subject holds
    GRANT on a node and that node holds the right on the object, then
    [can_access] returns true for every subject, also for one that is in
    no edge of the graph: nothing is asked of the subject. *)
Theorem grant_branch_ignores_subject ops g subject object r grantor node :
  run empty_graph ops = Some g →
  has_right g grantor node GRANT = true →
  has_right g node object r = true →
  can_access g subject object r = Some true.
Proof.
  intros [Hc _]%reachable_invariants Hgrant Hr.
  destruct (can_access_is_Some g subject object r) as [b Hb].
  rewrite Hb. f_equal. revert Hb. unfold can_access, _find_access_path.
  destruct (has_right g subject object r); [by intros [= <-] |].
  apply _dfs_search_grant; [|set_solver].
  apply grant_possible_branch; [done |]. by exists grantor, node.
Qed.

(** bob holds GRANT on dir, dir holds READ on file; stranger is in no edge. *)
Lemma grant_branch_ignores_subject_witness :
  let g := add_right (add_right empty_graph "bob" "dir" GRANT) "dir" "file" READ in
  run empty_graph [OpAddRight "bob" "dir" GRANT; OpAddRight "dir" "file" READ]
  = Some g
  ∧ ("stranger" ∉ all_nodes g)
  ∧ can_access g "stranger" "file" READ = Some true.
Proof.
  split; [vm_compute; reflexivity |].
  split; [apply (bool_decide_unpack _); vm_compute; reflexivity |].
  apply (grant_branch_ignores_subject
           [OpAddRight "bob" "dir" GRANT; OpAddRight "dir" "file" READ]
           _ "stranger" "file" READ "bob" "dir");
    vm_compute; reflexivity.
Defined.

(** C2, as stated, fails: X and a form one subgraph, G, I and Y another, and
    no edge joins them; G holds GRANT on I and I holds READ on Y.  The grant
    branch answers for every subject, so [can_access] returns true for X
    and Y is listed among the objects accessible to X. *)
Lemma disjoint_subgraphs_access :
  let g := add_right (add_right (add_right empty_graph
             "X" "a" READ) "G" "I" GRANT) "I" "Y" READ in
  let part : gset string := {["X"; "a"]} in
  disjoint_subgraphs g part
  ∧ "X" ∈ part ∧ ("Y" ∉ part)
  ∧ can_access g "X" "Y" READ = Some true
  ∧ ∃ l, get_accessible_objects g "X" READ = Some l ∧ "Y" ∈ l.
Proof.
  cbv zeta. split_and!.
  - apply disjoint_subgraphs_check. vm_compute; reflexivity.
  - apply (bool_decide_unpack _); vm_compute; reflexivity.
  - apply (bool_decide_unpack _); vm_compute; reflexivity.
  - vm_compute; reflexivity.
  - eexists. split; [vm_compute; reflexivity |]. apply list_elem_of_here.
Qed.

(** C2, amended: in a graph made of two subgraphs that no edge joins, with X
    in one and Y in the other, and with no node that holds the right on Y
    and has a holder of GRANT on it, [can_access] returns false for X, Y
    and the right, and [get_accessible_objects] for X does not list Y. *)
Theorem disjoint_no_access g (part : gset string) X Y r :
  disjoint_subgraphs g part → X ∈ part → Y ∉ part →
  ¬ grant_possible g Y r →
  can_access g X Y r = Some false
  ∧ ∃ l, get_accessible_objects g X r = Some l ∧ Y ∉ l.
Proof.
  intros Hd HX HY Hng.
  assert (grant_branch g Y r = false) as Hb.
  { destruct (grant_branch g Y r) eqn:Hb; [|done].
    by apply grant_branch_true in Hb. }
  assert (can_access g X Y r = Some false) as Hca.
  { destruct (can_access_is_Some g X Y r) as [b Hb'].
    rewrite Hb'. f_equal. revert Hb'. unfold can_access, _find_access_path.
    destruct (has_right g X Y r) eqn:Hdirect.
    { apply has_right_is_edge, Hd in Hdirect. tauto. }
    by apply (_dfs_search_disjoint g Y r part). }
  split; [done |].
  destruct (accessible_loop_spec g X r (elements (all_nodes g))) as (l & Hl & Hspec).
  exists l. split; [done |]. intros [_ Hin]%Hspec. congruence.
Qed.

(** X holds TAKE on X2 and X2 holds READ on a; in the other subgraph W
    holds READ on Y.  The search from X follows the TAKE edge and finds READ
    on a, but READ on Y, held only across the partition, is not reached. *)
Lemma disjoint_no_access_witness :
  let g := add_right (add_right (add_right empty_graph
             "X" "X2" TAKE) "X2" "a" READ) "W" "Y" READ in
  has_right g "W" "Y" READ = true
  ∧ can_access g "X" "a" READ = Some true
  ∧ can_access g "X" "Y" READ = Some false
  ∧ ∃ l, get_accessible_objects g "X" READ = Some l ∧ "Y" ∉ l.
Proof.
  split; [vm_compute; reflexivity |]. split; [vm_compute; reflexivity |].
  apply (disjoint_no_access _ {["X"; "X2"; "a"]}).
  - apply disjoint_subgraphs_check. vm_compute; reflexivity.
  - apply (bool_decide_unpack _); vm_compute; reflexivity.
  - apply (bool_decide_unpack _); vm_compute; reflexivity.
  - apply grant_branch_false; [|vm_compute; reflexivity].
    apply (reachable_invariants
             [OpAddRight "X" "X2" TAKE; OpAddRight "X2" "a" READ;
              OpAddRight "W" "Y" READ]).
    vm_compute; reflexivity.
Defined.

(** ** What the search decides *)

Section take_branch_complete.
Context (g : AccessGraph) (current target : string) (r : AccessRight).

Lemma take_branch_false rec l :
  take_branch rec g current target r l = Some false →
  ∀ i, i ∈ l → has_right g current i TAKE = true →
    has_right g i target r = false ∧ rec i = Some false.
Proof.
  induction l as [|i l IH]; simpl; [set_solver |].
  destruct (has_right g current i TAKE) eqn:Ht; simpl.
  - destruct (has_right g i target r) eqn:Hr; [done |].
    destruct (rec i) as [[|]|] eqn:Hrec; [done | | done].
    intros Hl i' [-> | Hin]%elem_of_cons Hi'; [done | by apply IH].
  - intros Hl i' [-> | Hin]%elem_of_cons Hi'; [congruence | by apply IH].
Qed.
End take_branch_complete.

Section search_characterisation.
Context (g : AccessGraph) (target : string) (r : AccessRight).

Lemma take_walk_reachable (visited : gset string) n a :
  take_walk g target r visited n a → take_reachable g a target r.
Proof.
  induction 1 as [h Hh | n a b _ Hab _ (h & Hrtc & Hh)].
  - by exists h.
  - exists h. split; [by eapply rtc_l | done].
Qed.

Lemma take_reachable_walk a :
  take_reachable g a target r → ∃ n, take_walk g target r ∅ n a.
Proof.
  intros (h & Hrtc & Hh). induction Hrtc as [h | a b h Hab _ IH].
  - exists 0. by constructor.
  - destruct (IH Hh) as [n Hn]. exists (S n).
    eapply take_walk_step; [set_solver | done..].
Qed.

(** A walk either avoids one more node [c], or passes through [c] and
    leaves a walk from [c] that is not longer. *)
Lemma take_walk_avoid (visited : gset string) c n a :
  take_walk g target r visited n a →
  take_walk g target r ({[c]} ∪ visited) n a
  ∨ ∃ m : nat, (m ≤ n)%nat ∧ take_walk g target r visited m c.
Proof.
  induction 1 as [h Hh | n a b Ha Hab Hw IH].
  - left. by constructor.
  - destruct (decide (a = c)) as [-> | Hne].
    + right. exists (S n). split; [lia |]. by eapply take_walk_step.
    + destruct IH as [IH | (m & Hm & IH)].
      * left. eapply take_walk_step; [set_solver | done..].
      * right. exists m. split; [lia | done].
Qed.

(** The search returns true only for a subject that can reach a holder of
    the right along TAKE edges, or when the grant branch succeeds. *)
Lemma _dfs_search_sound fuel : ∀ current (visited : gset string),
  _dfs_search fuel g current target r visited = Some true →
  take_reachable g current target r ∨ grant_branch g target r = true.
Proof.
  induction fuel as [|fuel IH]; intros current visited; [done |].
  simpl. case_decide; [done |].
  destruct (has_right g current target r) eqn:Hdirect.
  { intros _. left. exists current. split; [apply rtc_refl | done]. }
  match goal with |- context [take_branch ?rec _ _ _ _ ?l] =>
    destruct (take_branch rec g current target r l) as [[|]|] eqn:Hb end;
    [| intros [= ->]; by right | done].
  intros _. apply take_branch_true in Hb as (i & _ & Htake & [Hi | Hi]).
  - left. exists i. split; [by apply rtc_once | done].
  - destruct (IH _ _ Hi) as [(h & Hrtc & Hh) | ?]; [left | by right].
    exists h. split; [by eapply rtc_l | done].
Qed.

(** The search finds every walk: [index_covers] makes the loop over
    [get_subject_objects] see every TAKE edge of the current subject. *)
Lemma _dfs_search_complete n : ∀ (fuel : nat) current (visited : gset string),
  index_covers g →
  size (all_nodes g ∖ visited) < fuel →
  current ∉ visited →
  take_walk g target r visited n current →
  _dfs_search fuel g current target r visited = Some true.
Proof.
  induction n as [n IH] using lt_wf_ind.
  intros fuel current visited Hc Hfuel Hv Hw.
  destruct fuel as [|fuel]; [lia |].
  inversion Hw as [h Hh | n' a b _ Hab Hw']; subst.
  { simpl. rewrite decide_False by done. by rewrite Hh. }
  destruct (take_walk_avoid visited current n' b Hw')
    as [Hw'' | (m & Hm & Hw'')]; [| apply (IH m); [lia | done..]].
  simpl. rewrite decide_False by done.
  destruct (has_right g current target r); [done |].
  pose proof (subset_size _ _ (unvisited_shrinks g current b visited Hv Hab))
    as Hsize.
  match goal with |- context [take_branch ?rec _ _ _ _ ?l] =>
    destruct (take_branch_is_Some g current target r rec l) as [[|] Hb] end.
  { intros i _ Ht. apply _dfs_search_is_Some.
    pose proof (subset_size _ _ (unvisited_shrinks g current i visited Hv Ht)).
    lia. }
  { by rewrite Hb. }
  exfalso. eapply take_branch_false in Hb as [Hbr Hrec]; [| |exact Hab].
  2:{ apply elem_of_elements, Hc. by eapply has_right_is_edge. }
  inversion Hw'' as [h Hh | n'' a' b' Hb' Hab' Hw3]; subst; [congruence |].
  rewrite (IH (S n'') ltac:(lia) fuel b ({[current]} ∪ visited)) in Hrec;
    [done | done | lia | done | done].
Qed.
End search_characterisation.

Lemma can_access_true_iff g subject object r :
  index_covers g →
  can_access g subject object r = Some true
  ↔ take_reachable g subject object r ∨ grant_possible g object r.
Proof.
  intros Hc. unfold can_access, _find_access_path.
  destruct (has_right g subject object r) eqn:Hdirect.
  { split; [intros _; left | done].
    exists subject. split; [apply rtc_refl | done]. }
  split.
  - intros Hs. apply _dfs_search_sound in Hs as [? | ?%grant_branch_true];
      eauto.
  - intros [Hreach | Hgrant].
    + apply take_reachable_walk in Hreach as [n Hn].
      apply (_dfs_search_complete g object r n); [done | | set_solver | done].
      unfold search_fuel. apply Nat.lt_succ_r, subseteq_size. set_solver.
    + destruct (_dfs_search_is_Some g object r (search_fuel g) subject ∅)
        as [b Hb].
      { unfold search_fuel. apply Nat.lt_succ_r, subseteq_size. set_solver. }
      rewrite Hb. f_equal.
      apply (_dfs_search_grant g object r (search_fuel g) subject ∅ b);
        [by apply grant_possible_branch | set_solver | exact Hb].
Qed.

Lemma reachable_can_access_iff ops g subject object r :
  run empty_graph ops = Some g →
  can_access g subject object r = Some true
  ↔ take_reachable g subject object r ∨ grant_possible g object r.
Proof. intros [Hc _]%reachable_invariants. by apply can_access_true_iff. Qed.

(** [can_access] decides exactly this: in a graph reached from the empty
    one it returns true when the subject reaches, along TAKE edges (or is
    itself), a node that holds the right on the object, or when some node
    that holds the right on the object has a holder of GRANT on it; in
    every other case it returns false. *)
Theorem can_access_characterisation ops g subject object r :
  run empty_graph ops = Some g →
  (can_access g subject object r = Some true
   ↔ take_reachable g subject object r ∨ grant_possible g object r)
  ∧ (can_access g subject object r = Some false
     ↔ ¬ (take_reachable g subject object r ∨ grant_possible g object r)).
Proof.
  intros Hrun.
  pose proof (reachable_can_access_iff ops g subject object r Hrun) as Hiff.
  split; [done |]. rewrite <- Hiff.
  destruct (can_access_is_Some g subject object r) as [[|] ->]; naive_solver.
Qed.

(** carol holds TAKE on bob, bob holds TAKE on alice, alice holds READ on
    the file: a walk of two TAKE edges. *)
Lemma can_access_characterisation_witness :
  let g := add_right (add_right (add_right empty_graph
             "alice" "file" READ) "bob" "alice" TAKE) "carol" "bob" TAKE in
  (can_access g "carol" "file" READ = Some true
   ↔ take_reachable g "carol" "file" READ ∨ grant_possible g "file" READ)
  ∧ (can_access g "carol" "file" READ = Some false
     ↔ ¬ (take_reachable g "carol" "file" READ ∨ grant_possible g "file" READ)).
Proof.
  apply (can_access_characterisation
           [OpAddRight "alice" "file" READ; OpAddRight "bob" "alice" TAKE;
            OpAddRight "carol" "bob" TAKE]).
  vm_compute; reflexivity.
Defined.

Lemma can_access_true_held g subject object r :
  can_access g subject object r = Some true → held_by_someone g object r.
Proof.
  unfold can_access, _find_access_path.
  destruct (has_right g subject object r) eqn:Hdirect; [by exists subject |].
  intros Hs.
  apply _dfs_search_sound in Hs
    as [(h & _ & Hh) | (gs & i & _ & Hi)%grant_branch_true].
  - by exists h.
  - by exists i.
Qed.

Lemma accessible_loop_NoDup g s r objs l :
  NoDup objs → accessible_loop g s r objs = Some l → NoDup l.
Proof.
  revert l. induction objs as [|o objs IH]; intros l Hnd; simpl.
  - intros [= <-]. constructor.
  - apply NoDup_cons in Hnd as [Ho Hnd].
    destruct (accessible_loop_spec g s r objs) as (l' & Hl' & Hspec).
    destruct (can_access g s o r) as [b|]; [|done]. simpl.
    rewrite Hl'. simpl. intros [= <-].
    specialize (IH l' Hnd Hl'). destruct b; [|done].
    apply NoDup_cons. split; [|done]. rewrite Hspec. tauto.
Qed.

(** [get_accessible_objects] misses nothing: it returns, without
    repetition, exactly the identifiers for which [can_access] is true; an
    identifier that is in no edge is never accessible, so enumerating the
    graph's nodes loses none. *)
Theorem get_accessible_objects_exact g subject r :
  ∃ l, get_accessible_objects g subject r = Some l
    ∧ NoDup l
    ∧ ∀ o, o ∈ l ↔ can_access g subject o r = Some true.
Proof.
  unfold get_accessible_objects.
  destruct (accessible_loop_spec g subject r (elements (all_nodes g)))
    as (l & Hl & Hspec).
  exists l. split_and!; [done | |].
  - eapply accessible_loop_NoDup; [|done].
    apply (NoDup_elements (all_nodes g)).
  - intros o. rewrite Hspec. split; [tauto |]. intros Ho. split; [|done].
    apply can_access_true_held in Ho as [s Hs].
    apply elem_of_elements. by eapply edge_all_nodes, has_right_is_edge.
Qed.

(** ** Rights are moved, never made *)

Lemma has_right_add_set g s o rs s' o' r :
  has_right (add_set g s o rs) s' o' r = true
  ↔ ((s, o) = (s', o') ∧ r ∈ rs) ∨ has_right g s' o' r = true.
Proof.
  rewrite !has_right_get_rights, get_rights_add_set.
  case_decide; set_solver.
Qed.

(** [take] and [grant] make no right: after either call a right is held by
    some subject on an object exactly when some subject held it on that
    object before. *)
Theorem take_grant_make_no_right g subject source target R o r :
  (held_by_someone (take g subject source target R).2 o r
   ↔ held_by_someone g o r)
  ∧ (held_by_someone (grant g subject source target R).2 o r
     ↔ held_by_someone g o r).
Proof.
  rewrite take_unfold, grant_unfold. unfold held_by_someone. split.
  - destruct (has_right g subject source TAKE); [|done].
    case_decide; [done |]. simpl. split.
    + intros [s [[[= <- <-] Hin] | Hs]%has_right_add_set]; [|by exists s].
      exists source. apply has_right_get_rights. set_solver.
    + intros [s Hs]. exists s. apply has_right_add_set. by right.
  - destruct (has_right g subject source GRANT); [|done].
    case_decide; [done |]. simpl. split.
    + intros [s [[[= <- <-] Hin] | Hs]%has_right_add_set]; [|by exists s].
      exists subject. apply has_right_get_rights. set_solver.
    + intros [s Hs]. exists s. apply has_right_add_set. by right.
Qed.

(** ** Adding rights never takes access away *)

Lemma rights_included_has_right g g' s o r :
  rights_included g g' → has_right g s o r = true → has_right g' s o r = true.
Proof. rewrite !has_right_get_rights. intros Hi. apply Hi. Qed.

Lemma add_set_rights_included g s o rs : rights_included g (add_set g s o rs).
Proof.
  intros s' o'. rewrite get_rights_add_set. case_decide as Hd; [|done].
  injection Hd as <- <-. set_solver.
Qed.

Lemma add_rights_rights_included g s o l : rights_included g (add_rights g s o l).
Proof.
  unfold add_rights. revert g. induction l as [|r l IH]; intros g;
    [by intros ?? |].
  simpl. intros s' o'. etrans; [|apply IH].
  rewrite add_right_add_set. apply add_set_rights_included.
Qed.

Lemma growing_op_rights_included g op g' :
  growing_op op = true → apply_op g op = Some g' → rights_included g g'.
Proof.
  destruct op as [s o r|s o r|s src tgt rs|s src tgt rs|s o rs|s o rs|o];
    try done; simpl; intros _ [= <-].
  - rewrite add_right_add_set. apply add_set_rights_included.
  - destruct (take_result g s src tgt rs) as [-> | [l ->]]; [by intros ?? |].
    apply add_rights_rights_included.
  - destruct (grant_result g s src tgt rs) as [-> | [l ->]]; [by intros ?? |].
    apply add_rights_rights_included.
  - apply add_rights_rights_included.
Qed.

(** After [add_right], [take], [grant] or [create] on a graph reached from
    the empty one, every access that [can_access] allowed before is still
    allowed. *)
Theorem growing_op_keeps_access ops g op g' subject object r :
  run empty_graph ops = Some g →
  growing_op op = true →
  apply_op g op = Some g' →
  can_access g subject object r = Some true →
  can_access g' subject object r = Some true.
Proof.
  intros Hrun Hgrow Hop Hacc.
  assert (run empty_graph (ops ++ [op]) = Some g') as Hrun'.
  { clear -Hrun Hop. revert Hrun. generalize empty_graph.
    induction ops as [|op' ops IH]; intros g0; simpl.
    - intros [= ->]. by rewrite Hop.
    - destruct (apply_op g0 op'); [apply IH | done]. }
  pose proof (growing_op_rights_included g op g' Hgrow Hop) as Hinc.
  apply (reachable_can_access_iff _ _ subject object r Hrun').
  apply (reachable_can_access_iff _ _ subject object r Hrun) in Hacc
    as [(h & Hrtc & Hh) | (gs & i & Hg & Hi)].
  - left. exists h. split; [|by eapply rights_included_has_right].
    eapply rtc_subrel; [|done]. intros a b.
    by apply rights_included_has_right.
  - right. exists gs, i. split; by eapply rights_included_has_right.
Qed.

(** bob holds TAKE on alice, who holds READ on the file; bob then takes
    READ. *)
Lemma growing_op_keeps_access_witness :
  let g := add_right (add_right empty_graph "alice" "file" READ)
             "bob" "alice" TAKE in
  can_access g "bob" "file" READ = Some true
  ∧ can_access (take g "bob" "alice" "file" {[READ]}).2 "bob" "file" READ
    = Some true.
Proof.
  split; [vm_compute; reflexivity |].
  apply (growing_op_keeps_access
           [OpAddRight "alice" "file" READ; OpAddRight "bob" "alice" TAKE]
           (add_right (add_right empty_graph "alice" "file" READ)
              "bob" "alice" TAKE)
           (OpTake "bob" "alice" "file" {[READ]}));
    vm_compute; reflexivity.
Defined.

(** Every right the subject holds on the target after [take] was reported
    obtainable by [can_access] before the call: the search anticipates
    what one [take] can bring. *)
Theorem take_is_anticipated ops g subject source target R r :
  run empty_graph ops = Some g →
  r ∈ get_rights (take g subject source target R).2 subject target →
  can_access g subject target r = Some true.
Proof.
  intros Hrun Hin.
  apply (reachable_can_access_iff ops g subject target r Hrun). left.
  rewrite take_unfold in Hin.
  destruct (has_right g subject source TAKE) eqn:Htake.
  - destruct (decide (R ∩ get_rights g source target = ∅)).
    + exists subject. split; [apply rtc_refl | by apply has_right_get_rights].
    + simpl in Hin. rewrite get_rights_add_set, decide_True in Hin by done.
      apply elem_of_union in Hin as [Hin | Hin].
      * exists source. split; [by apply rtc_once |].
        apply has_right_get_rights. set_solver.
      * exists subject. split; [apply rtc_refl | by apply has_right_get_rights].
  - exists subject. split; [apply rtc_refl | by apply has_right_get_rights].
Qed.

(** alice holds TAKE on fileA, fileA holds READ on fileB. *)
Lemma take_is_anticipated_witness :
  let g := add_right (add_right empty_graph "alice" "fileA" TAKE)
             "fileA" "fileB" READ in
  (take g "alice" "fileA" "fileB" {[READ]}).1 = true
  ∧ has_right g "alice" "fileB" READ = false
  ∧ can_access g "alice" "fileB" READ = Some true.
Proof.
  split; [vm_compute; reflexivity |]. split; [vm_compute; reflexivity |].
  apply (take_is_anticipated
           [OpAddRight "alice" "fileA" TAKE; OpAddRight "fileA" "fileB" READ]
           _ "alice" "fileA" "fileB" {[READ]} READ).
  - vm_compute; reflexivity.
  - apply (bool_decide_unpack _); vm_compute; reflexivity.
Defined.

(** A [grant] that would succeed is not anticipated: when the subject holds
    GRANT and the right on the source, while the target subject reaches no
    holder of the right along TAKE edges and no holder of the right on the
    source has a GRANT holder on it, [can_access] answers false for the
    target subject, [grant] succeeds, and [can_access] answers true
    afterwards. *)
Theorem grant_is_not_anticipated ops g subject source target r :
  run empty_graph ops = Some g →
  has_right g subject source GRANT = true →
  has_right g subject source r = true →
  ¬ take_reachable g target source r →
  ¬ grant_possible g source r →
  can_access g target source r = Some false
  ∧ (grant g subject source target {[r]}).1 = true
  ∧ can_access (grant g subject source target {[r]}).2 target source r
    = Some true.
Proof.
  intros Hrun Hgrant Hr Hnreach Hngrant.
  apply has_right_get_rights in Hr.
  split_and!.
  - pose proof (reachable_can_access_iff ops g target source r Hrun) as Hiff.
    destruct (can_access_is_Some g target source r) as [[|] Hb]; [|done].
    apply Hiff in Hb. tauto.
  - rewrite grant_unfold, Hgrant. rewrite decide_False by set_solver. done.
  - rewrite grant_unfold, Hgrant. rewrite decide_False by set_solver. simpl.
    unfold can_access.
    replace (has_right _ target source r) with true; [done |].
    symmetry. apply has_right_add_set. left. split; [done | set_solver].
Qed.

(** alice holds all six rights on file1; bob holds nothing. *)
Lemma grant_is_not_anticipated_witness :
  let g := (create empty_graph "alice" "file1" None).2 in
  can_access g "bob" "file1" READ = Some false
  ∧ (grant g "alice" "file1" "bob" {[READ]}).1 = true
  ∧ can_access (grant g "alice" "file1" "bob" {[READ]}).2 "bob" "file1" READ
    = Some true.
Proof.
  assert (run empty_graph [OpCreate "alice" "file1" None]
          = Some (create empty_graph "alice" "file1" None).2) as Hrun
    by (vm_compute; reflexivity).
  apply (grant_is_not_anticipated [OpCreate "alice" "file1" None]);
    [exact Hrun | vm_compute; reflexivity | vm_compute; reflexivity | |].
  - intros Hreach.
    pose proof (proj2 (reachable_can_access_iff _ _
                  "bob" "file1" READ Hrun) (or_introl Hreach)) as Hacc.
    vm_compute in Hacc. discriminate.
  - intros Hgr.
    pose proof (proj2 (reachable_can_access_iff _ _
                  "bob" "file1" READ Hrun) (or_intror Hgr)) as Hacc.
    vm_compute in Hacc. discriminate.
Defined.

(** ** remove and get_all_edges *)

Lemma remove_rights_spec l : ∀ g s o,
  index_covers g → edges_nonempty g →
  ∃ g', remove_rights g s o l = Some g'
    ∧ ∀ s' o', get_rights g' s' o'
        = if decide ((s, o) = (s', o')) then get_rights g s o ∖ list_to_set l
          else get_rights g s' o'.
Proof.
  induction l as [|r l IH]; intros g s o Hc Hn; simpl.
  - exists g. split; [done |]. intros s' o'. case_decide as Hd; [|done].
    injection Hd as <- <-. set_solver.
  - destruct (remove_right_spec g s o r Hc Hn) as (g1 & Hg1 & _ & Hr & _).
    destruct (remove_right_invariants g s o r Hc Hn) as (g1' & Hg1' & Hc1 & Hn1 & _).
    rewrite Hg1 in Hg1'. injection Hg1' as <-. rewrite Hg1. simpl.
    destruct (IH g1 s o Hc1 Hn1) as (g2 & Hg2 & Hr2).
    exists g2. split; [done |]. intros s' o'. rewrite Hr2, !Hr.
    rewrite (decide_True (P := (s, o) = (s, o))) by done.
    case_decide; [set_solver | done].
Qed.

(** [remove] on a graph reached from the empty one, by how its set of
    rights is passed.  Called with a set of the caller's own (a literal, a
    copy) it never raises; it leaves on the edge the rights it had that are
    not in the given set, and every other edge as it was.  Called with the
    set object that [get_rights] returns for the same edge it does not
    complete on an existing edge: it raises [RuntimeError] after removing
    one right, the other rights of the edge and every other edge being as
    before; on an edge that does not exist it returns and changes
    nothing. *)
Theorem remove_removes_exactly ops g s o (R : gset AccessRight) :
  run empty_graph ops = Some g →
  (∃ g', remove g s o R = Some g'
     ∧ get_rights g' s o = get_rights g s o ∖ R
     ∧ ∀ s' o', (s', o') ≠ (s, o) → get_rights g' s' o' = get_rights g s' o')
  ∧ (get_rights g s o = ∅ → remove_stored g s o = Returned g)
  ∧ (get_rights g s o ≠ ∅ →
       ∃ r g', r ∈ get_rights g s o
         ∧ remove_stored g s o = RuntimeError g'
         ∧ get_rights g' s o = get_rights g s o ∖ {[r]}
         ∧ ∀ s' o', (s', o') ≠ (s, o) →
             get_rights g' s' o' = get_rights g s' o').
Proof.
  intros [Hc Hn]%reachable_invariants. split_and!.
  - unfold remove.
    destruct (remove_rights_spec (elements R) g s o Hc Hn) as (g' & Hg' & Hr).
    exists g'. split; [done |]. split.
    + rewrite Hr, decide_True by done. by rewrite list_to_set_elements_L.
    + intros s' o' Hne. rewrite Hr, decide_False; [done | congruence].
  - intros Hem. unfold remove_stored.
    destruct (graph g !! _normalize_edge s o) as [rs|] eqn:Hrs; [|done].
    exfalso. apply (Hn _ _ Hrs).
    unfold get_rights in Hem. by rewrite Hrs in Hem.
  - intros Hne. unfold remove_stored.
    destruct (graph g !! _normalize_edge s o) as [rs|] eqn:Hrs.
    2:{ unfold get_rights in Hne. by rewrite Hrs in Hne. }
    assert (get_rights g s o = rs) as Hgr by (unfold get_rights; by rewrite Hrs).
    destruct (elements rs) as [|r l] eqn:Hel.
    { apply elements_empty_inv, leibniz_equiv in Hel. congruence. }
    assert (r ∈ rs) as Hin by (apply elem_of_elements; rewrite Hel; set_solver).
    destruct (remove_right_spec g s o r Hc Hn) as (g' & Hg' & _ & Hr & _).
    rewrite Hg'. exists r, g'. split_and!.
    + by rewrite Hgr.
    + done.
    + by rewrite Hr, decide_True.
    + intros s' o' Hne'. rewrite Hr, decide_False; [done | congruence].
Qed.

(** alice holds all six rights on file1 and gives up WRITE and OWN. *)
Lemma remove_removes_exactly_witness :
  let g := (create empty_graph "alice" "file1" None).2 in
  (∃ g', remove g "alice" "file1" {[WRITE; OWN]} = Some g'
     ∧ get_rights g' "alice" "file1"
       = get_rights g "alice" "file1" ∖ {[WRITE; OWN]}
     ∧ ∀ s' o', (s', o') ≠ ("alice", "file1") →
         get_rights g' s' o' = get_rights g s' o')
  ∧ (get_rights g "alice" "file1" = ∅ →
       remove_stored g "alice" "file1" = Returned g)
  ∧ (get_rights g "alice" "file1" ≠ ∅ →
       ∃ r g', r ∈ get_rights g "alice" "file1"
         ∧ remove_stored g "alice" "file1" = RuntimeError g'
         ∧ get_rights g' "alice" "file1"
           = get_rights g "alice" "file1" ∖ {[r]}
         ∧ ∀ s' o', (s', o') ≠ ("alice", "file1") →
             get_rights g' s' o' = get_rights g s' o').
Proof.
  apply (remove_removes_exactly [OpCreate "alice" "file1" None]).
  vm_compute; reflexivity.
Defined.

(** [get_all_edges] lists, without repetition, exactly the pairs that carry
    a right, each with its whole right-set. *)
Theorem get_all_edges_exact g :
  NoDup (get_all_edges g)
  ∧ ∀ s o rs, (s, o, rs) ∈ get_all_edges g
      ↔ get_rights g s o = rs ∧ rs ≠ ∅.
Proof.
  unfold get_all_edges. split.
  - apply NoDup_fmap_2.
    + intros [[s o] rs] [[s' o'] rs']. simpl. by intros [= -> -> ->].
    + apply NoDup_filter, NoDup_map_to_list.
  - intros s o rs. rewrite list_elem_of_fmap. split.
    + intros ([[s' o'] rs'] & [= <- <- <-] & Hin).
      apply list_elem_of_filter in Hin as [Hne Hin].
      apply elem_of_map_to_list in Hin.
      unfold get_rights, _normalize_edge. by rewrite Hin.
    + intros [Hrs Hne]. exists ((s, o), rs). split; [done |].
      apply list_elem_of_filter. split; [done |].
      apply elem_of_map_to_list.
      unfold get_rights, _normalize_edge in Hrs.
      destruct (graph g !! (s, o)) as [rs'|]; simpl in Hrs; congruence.
Qed.

(** ** add_right followed by remove_right *)

Lemma graph_eq_of_rights g g' :
  edges_nonempty g → edges_nonempty g' →
  (∀ s o, get_rights g' s o = get_rights g s o) → graph g' = graph g.
Proof.
  intros Hn Hn' Hr. apply map_eq. intros [s o].
  specialize (Hr s o). unfold get_rights, _normalize_edge in Hr.
  destruct (graph g' !! (s, o)) as [rs'|] eqn:H';
    destruct (graph g !! (s, o)) as [rs|] eqn:H; simpl in Hr; subst; try done.
  - by apply Hn' in H'.
  - by apply Hn in H.
Qed.

(** Adding a right that was not held and removing it again undoes the
    addition: on a graph reached through the graph's own operations the
    edge map is the same as before, and so is every answer of
    [get_subject_objects] and [get_object_subjects]. *)
Theorem add_then_remove_right ops g s o r :
  forallb core_op ops = true →
  run empty_graph ops = Some g →
  has_right g s o r = false →
  ∃ g', remove_right (add_right g s o r) s o r = Some g'
    ∧ graph g' = graph g
    ∧ ∀ x, get_subject_objects g' x = get_subject_objects g x
           ∧ get_object_subjects g' x = get_object_subjects g x.
Proof.
  intros Hcore Hrun Hr. apply has_right_false in Hr.
  pose proof (core_run_index_mirror ops g Hcore Hrun) as Hm.
  destruct (reachable_invariants ops g Hrun) as [Hc Hn].
  assert (index_covers (add_right g s o r)) as Hc1
    by (rewrite add_right_add_set; by apply add_set_index_covers).
  assert (edges_nonempty (add_right g s o r)) as Hn1
    by (rewrite add_right_add_set; apply add_set_edges_nonempty;
        [set_solver | done]).
  destruct (remove_right_spec (add_right g s o r) s o r Hc1 Hn1)
    as (g' & Hg' & Hn' & Hrights & Hso & Hos).
  exists g'. split; [done |].
  assert (get_rights (add_right g s o r) s o ∖ {[r]} = get_rights g s o) as Hback.
  { rewrite get_rights_add_right, decide_True by done. set_solver. }
  assert (get_rights (add_right g s o r) s o ≠ ∅) as Hne.
  { rewrite get_rights_add_right, decide_True by done. set_solver. }
  split.
  - apply graph_eq_of_rights; [done..|]. intros s' o'.
    rewrite Hrights. destruct (decide ((s, o) = (s', o'))) as [Hd | Hd].
    + injection Hd as <- <-. done.
    + rewrite get_rights_add_right. by rewrite decide_False.
  - intros x. rewrite Hso, Hos, Hback. clear Hso Hos Hrights Hg'.
    rewrite add_right_add_set in *.
    rewrite !get_subject_objects_add_set, !get_object_subjects_add_set.
    destruct (Hm s o) as [Hms Hmo].
    destruct (decide (get_rights g s o = ∅)) as [He | He].
    + assert (o ∉ get_subject_objects g s) by tauto.
      assert (s ∉ get_object_subjects g o) by tauto.
      split; repeat case_decide; destruct_and?; subst;
        try tauto; set_solver.
    + assert (o ∈ get_subject_objects g s) by tauto.
      assert (s ∈ get_object_subjects g o) by tauto.
      split; repeat case_decide; destruct_and?; subst;
        try tauto; set_solver.
Qed.

(** bob gets WRITE on alice's file and loses it again. *)
Lemma add_then_remove_right_witness :
  let g := (create empty_graph "alice" "file1" None).2 in
  ∃ g', remove_right (add_right g "bob" "file1" WRITE) "bob" "file1" WRITE
        = Some g'
    ∧ graph g' = graph g
    ∧ ∀ x, get_subject_objects g' x = get_subject_objects g x
           ∧ get_object_subjects g' x = get_object_subjects g x.
Proof.
  apply (add_then_remove_right [OpCreate "alice" "file1" None]);
    vm_compute; reflexivity.
Defined.

(** ** objects.py *)

Lemma create_object_consistent oi object_id name ty owner parent oi' :
  Objects.consistent oi →
  Objects.objects oi !! object_id = None →
  Objects.create_object oi object_id name ty owner parent
  = Some (object_id, oi') →
  Objects.consistent oi'.
Proof.
  intros [Hobj Hname] Hfresh. unfold Objects.create_object.
  destruct (Objects.name_to_id oi !! name) eqn:Hfree; [done |].
  intros [= <-]. split; simpl.
  - intros i obj. rewrite lookup_insert. case_decide as Hi.
    + intros [= <-]. simpl. subst i. by rewrite lookup_insert_eq.
    + intros Hlook. destruct (Hobj i obj Hlook) as [? Hn]. split; [done |].
      rewrite lookup_insert_ne; [done | congruence].
  - intros n i. rewrite lookup_insert. case_decide as Hn.
    + intros [= <-]. eexists. rewrite lookup_insert_eq. done.
    + intros Hlook. destruct (Hname n i Hlook) as (obj & Ho & ?).
      exists obj. rewrite lookup_insert_ne; [done | congruence].
Qed.

(** A created object is found again: with a fresh identifier and a free
    name, [create_object] returns the identifier, keeps the two
    dictionaries in agreement, and [get_object] returns the new entry for
    the identifier, and for the name unless the name is the identifier of
    an older object; every older object is still found by its identifier. *)
Theorem create_object_then_get oi object_id name ty owner parent :
  Objects.consistent oi →
  Objects.objects oi !! object_id = None →
  Objects.name_to_id oi !! name = None →
  let entry := Objects.mkObjectInfo object_id name ty owner parent in
  ∃ oi',
    Objects.create_object oi object_id name ty owner parent
    = Some (object_id, oi')
    ∧ Objects.consistent oi'
    ∧ Objects.get_object oi' object_id = Some (Some entry)
    ∧ (Objects.objects oi !! name = None →
         Objects.get_object oi' name = Some (Some entry)
         ∧ Objects.get_object_id oi' name = Some object_id)
    ∧ (∀ i obj, Objects.objects oi !! i = Some obj →
         Objects.get_object oi' i = Some (Some obj)).
Proof.
  intros Hcons Hfresh Hfree entry.
  assert (Objects.create_object oi object_id name ty owner parent
          = Some (object_id,
                  Objects.mkObjectIdentifier
                    (<[object_id := entry]> (Objects.objects oi))
                    (<[name := object_id]> (Objects.name_to_id oi)))) as Hcreate
    by (unfold Objects.create_object; by rewrite Hfree).
  eexists. split; [exact Hcreate |]. split_and!.
  - by eapply create_object_consistent.
  - unfold Objects.get_object. simpl. by rewrite lookup_insert_eq.
  - intros Hnoid. unfold Objects.get_object, Objects.get_object_id. simpl.
    destruct (decide (object_id = name)) as [-> | Hne].
    + by rewrite !lookup_insert_eq.
    + rewrite (lookup_insert_ne (Objects.objects oi)) by done.
      rewrite Hnoid, !lookup_insert_eq. simpl. done.
  - intros i obj Hlook. unfold Objects.get_object. simpl.
    rewrite lookup_insert_ne by congruence. by rewrite Hlook.
Qed.

(** The first object of a system. *)
Lemma create_object_then_get_witness :
  let entry := Objects.mkObjectInfo "id1" "report" Objects.FILE "alice" None in
  ∃ oi',
    Objects.create_object Objects.empty_identifier
      "id1" "report" Objects.FILE "alice" None = Some ("id1", oi')
    ∧ Objects.consistent oi'
    ∧ Objects.get_object oi' "id1" = Some (Some entry)
    ∧ (Objects.objects Objects.empty_identifier !! "report" = None →
         Objects.get_object oi' "report" = Some (Some entry)
         ∧ Objects.get_object_id oi' "report" = Some "id1")
    ∧ (∀ i obj, Objects.objects Objects.empty_identifier !! i = Some obj →
         Objects.get_object oi' i = Some (Some obj)).
Proof.
  apply (create_object_then_get Objects.empty_identifier
           "id1" "report" Objects.FILE "alice" None).
  - split; intros ? ?; simpl; by rewrite lookup_empty.
  - reflexivity.
  - reflexivity.
Defined.

(** While the two dictionaries agree no lookup raises, and deleting keeps
    them in agreement: [get_object] and [delete_object] return for every
    identifier or name; after a deletion that returned true the object's
    identifier is no longer filed and its name is free again, so that an
    object of that name can be created anew. *)
Theorem delete_object_frees_name oi identifier :
  Objects.consistent oi →
  is_Some (Objects.get_object oi identifier)
  ∧ ∃ deleted oi',
      Objects.delete_object oi identifier = Some (deleted, oi')
      ∧ Objects.consistent oi'
      ∧ (deleted = false → oi' = oi)
      ∧ (deleted = true →
           ∃ obj, Objects.get_object oi identifier = Some (Some obj)
             ∧ Objects.objects oi' !! Objects.obj_id obj = None
             ∧ Objects.name_to_id oi' !! Objects.obj_name obj = None
             ∧ ∀ new_id ty owner parent,
                 is_Some (Objects.create_object oi' new_id
                            (Objects.obj_name obj) ty owner parent)).
Proof.
  intros [Hobj Hname]. split.
  { unfold Objects.get_object.
    destruct (Objects.objects oi !! identifier); [eauto |].
    destruct (Objects.name_to_id oi !! identifier) as [i|] eqn:Hn; [|eauto].
    destruct (Hname _ _ Hn) as (obj & -> & _). simpl. eauto. }
  assert (∀ object_id,
            Objects.get_object_id oi identifier = Some object_id →
            ∃ obj, Objects.objects oi !! object_id = Some obj
                   ∧ Objects.get_object oi identifier = Some (Some obj))
    as Hresolve.
  { intros object_id. unfold Objects.get_object_id, Objects.get_object.
    destruct (Objects.objects oi !! identifier) as [obj|] eqn:Hi.
    - intros [= <-]. eauto.
    - intros Hn. rewrite Hn. destruct (Hname _ _ Hn) as (obj & Ho & _).
      rewrite Ho. eauto. }
  unfold Objects.delete_object.
  destruct (Objects.get_object_id oi identifier) as [object_id|];
    [|exists false, oi; by split_and!].
  case_decide as Hempty; [exists false, oi; by split_and! |].
  destruct (Hresolve object_id eq_refl) as (obj & Ho & Hget).
  rewrite Ho. simpl. destruct (Hobj _ _ Ho) as [Hid Hnm].
  eexists true, _. split; [done |]. split_and!; [| done |].
  - split; simpl.
    + intros i obj'. rewrite lookup_delete_Some. intros [Hne Hlook].
      destruct (Hobj _ _ Hlook) as [? Hn']. split; [done |].
      rewrite lookup_delete_ne; [done |]. intros Heq.
      rewrite <- Heq in Hn'. congruence.
    + intros n i. rewrite lookup_delete_Some. intros [Hne Hlook].
      destruct (Hname _ _ Hlook) as (obj' & Ho' & Hn').
      exists obj'. split; [|done]. rewrite lookup_delete_ne; [done |].
      intros <-. congruence.
  - intros _. exists obj. split_and!; [done | | |]; simpl.
    + rewrite Hid. apply lookup_delete_eq.
    + apply lookup_delete_eq.
    + intros new_id ty owner parent. unfold Objects.create_object. simpl.
      rewrite lookup_delete_eq. eauto.
Qed.

(** A system with one file, deleted by its identifier. *)
Lemma delete_object_frees_name_witness :
  let oi := (Operations.object_identifier
               (Operations.create_file Operations.empty_module
                  "alice" "report" None "id1").2) in
  is_Some (Objects.get_object oi "id1")
  ∧ ∃ deleted oi',
      Objects.delete_object oi "id1" = Some (deleted, oi')
      ∧ Objects.consistent oi'
      ∧ (deleted = false → oi' = oi)
      ∧ (deleted = true →
           ∃ obj, Objects.get_object oi "id1" = Some (Some obj)
             ∧ Objects.objects oi' !! Objects.obj_id obj = None
             ∧ Objects.name_to_id oi' !! Objects.obj_name obj = None
             ∧ ∀ new_id ty owner parent,
                 is_Some (Objects.create_object oi' new_id
                            (Objects.obj_name obj) ty owner parent)).
Proof.
  apply (delete_object_frees_name _ "id1").
  eapply (create_object_consistent Objects.empty_identifier
            "id1" "report" Objects.FILE "alice" None).
  - split; intros ? ?; simpl; by rewrite lookup_empty.
  - reflexivity.
  - vm_compute; reflexivity.
Defined.

(** [get_objects_by_owner] returns the objects of the owner, and for the
    empty owner name every object: the empty name switches the filter
    off. *)
Theorem get_objects_by_owner_exact oi owner obj :
  obj ∈ Objects.get_objects_by_owner oi owner
  ↔ (∃ i, Objects.objects oi !! i = Some obj)
    ∧ (owner = "" ∨ Objects.obj_owner obj = owner).
Proof.
  unfold Objects.get_objects_by_owner, Objects.list_objects.
  rewrite list_elem_of_filter, list_elem_of_fmap.
  unfold Objects.list_objects_skip. simpl. split.
  - intros [Hskip ([i obj'] & -> & Hin%elem_of_map_to_list)]. simpl in *.
    split; [eauto |].
    destruct (decide (owner = "")) as [|Hne]; [by left | right].
    rewrite (bool_decide_eq_true_2 _ Hne) in Hskip. simpl in Hskip.
    by apply bool_decide_eq_false, dec_stable in Hskip.
  - intros [[i Hi] Howner]. split.
    + destruct Howner as [-> | <-].
      * by rewrite bool_decide_eq_false_2 by (by intros []).
      * rewrite (bool_decide_eq_false_2 (_ ≠ Objects.obj_owner obj))
          by (by intros []).
        by rewrite andb_false_r.
    + exists (i, obj). split; [done | by apply elem_of_map_to_list].
Qed.

(** ** operations.py *)

Lemma can_access_direct g s o r :
  has_right g s o r = true → can_access g s o r = Some true.
Proof. intros Hr. unfold can_access. by rewrite Hr. Qed.

Lemma create_all_rights g s o r :
  has_right (create g s o None).2 s o r = true.
Proof.
  apply has_right_get_rights. unfold create. simpl.
  rewrite add_rights_elements, decide_False.
  - rewrite get_rights_add_set, decide_True by done.
    destruct r; unfold ALL_RIGHTS; set_solver.
  - intros He. assert (READ ∈ ALL_RIGHTS) as Hin by (unfold ALL_RIGHTS; set_solver).
    rewrite He in Hin. set_solver.
Qed.

(** A file can be created exactly when its name is free.  With a free name
    [create_file] returns the new identifier, and the creator at once
    holds every right on the file, reads the empty content and may write
    it, whatever the system was before; with a taken name it returns
    [None] and changes nothing. *)
Theorem create_file_gives_owner_access ops subject name parent new_id :
  (Objects.name_to_id (Operations.object_identifier ops) !! name = None →
     let result := Operations.create_file ops subject name parent new_id in
     result.1 = Some new_id
     ∧ (∀ r, has_right (Operations.access_graph result.2) subject new_id r = true)
     ∧ Operations.read_file result.2 subject new_id = Some (Some "")
     ∧ ∀ content,
         ∃ ops', Operations.write_file result.2 subject new_id content
                 = Some (true, ops')
                 ∧ Operations.get_file_content ops' new_id = content)
  ∧ (is_Some (Objects.name_to_id (Operations.object_identifier ops) !! name) →
       Operations.create_file ops subject name parent new_id = (None, ops)).
Proof.
  split.
  - intros Hfree. unfold Operations.create_file, Objects.create_object.
    rewrite Hfree. cbv zeta. cbn [fst snd Operations.access_graph].
    split; [done |]. split; [intros r; apply create_all_rights |].
    split.
    + unfold Operations.read_file. cbn [Operations.access_graph].
      rewrite (can_access_direct _ _ _ _ (create_all_rights _ _ _ READ)).
      cbn. unfold Objects.get_object. cbn. rewrite lookup_insert_eq. cbn.
      by rewrite lookup_insert_eq.
    + intros content. unfold Operations.write_file.
      cbn [Operations.access_graph].
      rewrite (can_access_direct _ _ _ _ (create_all_rights _ _ _ WRITE)).
      cbn. unfold Objects.get_object. cbn. rewrite lookup_insert_eq. cbn.
      eexists. split; [done |]. unfold Operations.get_file_content. cbn.
      by rewrite lookup_insert_eq.
  - intros [i Hi]. unfold Operations.create_file, Objects.create_object.
    by rewrite Hi.
Qed.

(** After a [write_file] that returned true the file holds the written
    content: [get_file_content] returns it, and so does [read_file] for
    every subject that [can_access] allows to read; the graph, the objects
    and the content of every other file are as before. *)
Theorem write_file_then_read ops subject object_id content ops' :
  Operations.write_file ops subject object_id content = Some (true, ops') →
  Operations.get_file_content ops' object_id = content
  ∧ (∀ reader,
       can_access (Operations.access_graph ops) reader object_id READ
       = Some true →
       Operations.read_file ops' reader object_id = Some (Some content))
  ∧ Operations.access_graph ops' = Operations.access_graph ops
  ∧ Operations.object_identifier ops' = Operations.object_identifier ops
  ∧ ∀ other, other ≠ object_id →
      Operations.get_file_content ops' other
      = Operations.get_file_content ops other.
Proof.
  unfold Operations.write_file.
  destruct (can_access _ subject object_id WRITE) as [[|]|]; [| done..].
  cbn.
  destruct (Objects.get_object _ object_id) as [[obj|]|] eqn:Hobj; [| done..].
  cbn. case_decide as Hfile; [done |]. intros [= <-].
  unfold Operations.get_file_content, Operations.read_file. cbn.
  split_and!; try done.
  - by rewrite lookup_insert_eq.
  - intros reader ->. cbn. rewrite Hobj. cbn.
    rewrite decide_False by (intros Hn; by apply Hn).
    by rewrite lookup_insert_eq.
  - intros other Hne. by rewrite lookup_insert_ne.
Qed.

(** alice writes to the file she created. *)
Lemma write_file_then_read_witness :
  let ops := (Operations.create_file Operations.empty_module
                "alice" "report" None "id1").2 in
  let ops' := Operations.mkOperationsModule (Operations.object_identifier ops)
                (Operations.access_graph ops) {["id1" := "hello"]} in
  Operations.get_file_content ops' "id1" = "hello"
  ∧ (∀ reader,
       can_access (Operations.access_graph ops) reader "id1" READ = Some true →
       Operations.read_file ops' reader "id1" = Some (Some "hello"))
  ∧ Operations.access_graph ops' = Operations.access_graph ops
  ∧ Operations.object_identifier ops' = Operations.object_identifier ops
  ∧ ∀ other, other ≠ "id1" →
      Operations.get_file_content ops' other
      = Operations.get_file_content ops other.
Proof.
  apply (write_file_then_read _ "alice" "id1" "hello").
  vm_compute; reflexivity.
Defined.

(** Nothing is read, written, executed or listed without access: content
    is returned, a write or an execution accepted, or a directory entry
    listed, only for a subject that [can_access] allows, that is one that
    reaches a holder of the right along TAKE edges or for whom the grant
    branch answers; and only on a file (a directory for the listing). *)
Theorem operations_need_access ops subject object_id :
  let g := Operations.access_graph ops in
  let allowed r :=
    can_access g subject object_id r = Some true
    ∧ (take_reachable g subject object_id r ∨ grant_possible g object_id r) in
  let is_a ty :=
    ∃ obj, Objects.get_object (Operations.object_identifier ops) object_id
           = Some (Some obj) ∧ Objects.obj_type obj = ty in
  (∀ content, Operations.read_file ops subject object_id = Some (Some content) →
     allowed READ ∧ is_a Objects.FILE)
  ∧ (∀ content ops',
       Operations.write_file ops subject object_id content = Some (true, ops') →
       allowed WRITE ∧ is_a Objects.FILE)
  ∧ (Operations.execute_file ops subject object_id = Some true →
       allowed EXECUTE ∧ is_a Objects.FILE)
  ∧ (∀ entry entries,
       Operations.list_directory ops subject object_id = Some (entry :: entries) →
       allowed READ ∧ is_a Objects.DIRECTORY).
Proof.
  cbv zeta.
  assert (∀ r, can_access (Operations.access_graph ops) subject object_id r
               = Some true →
               take_reachable (Operations.access_graph ops) subject object_id r
               ∨ grant_possible (Operations.access_graph ops) object_id r)
    as Hsound.
  { intros r. unfold can_access, _find_access_path.
    destruct (has_right _ subject object_id r) eqn:Hd.
    - intros _. left. exists subject. split; [apply rtc_refl | done].
    - intros Hs. apply _dfs_search_sound in Hs as [? | ?%grant_branch_true];
        eauto. }
  unfold Operations.read_file, Operations.write_file, Operations.execute_file,
    Operations.list_directory.
  split_and!.
  - intros content.
    destruct (can_access _ subject object_id READ) as [[|]|] eqn:Hacc;
      [| done..]. cbn.
    destruct (Objects.get_object _ object_id) as [[obj|]|]; [| done..]. cbn.
    case_decide as Hty; [done |]. eauto 10.
  - intros content ops'.
    destruct (can_access _ subject object_id WRITE) as [[|]|] eqn:Hacc;
      [| done..]. cbn.
    destruct (Objects.get_object _ object_id) as [[obj|]|]; [| done..]. cbn.
    case_decide as Hty; [done |]. eauto 10.
  - destruct (can_access _ subject object_id EXECUTE) as [[|]|] eqn:Hacc;
      [| done..]. cbn.
    destruct (Objects.get_object _ object_id) as [[obj|]|]; [| done..]. cbn.
    case_decide as Hty; [done |]. eauto 10.
  - intros entry entries.
    destruct (can_access _ subject object_id READ) as [[|]|] eqn:Hacc;
      [| done..]. cbn.
    destruct (Objects.get_object _ object_id) as [[obj|]|]; [| done..]. cbn.
    case_decide as Hty; [done |]. eauto 10.
Qed.

Lemma delete_object_edges_rights g object_id s o :
  get_rights (delete_object_edges g object_id) s o
  = if decide (o = object_id) then ∅ else get_rights g s o.
Proof.
  unfold get_rights at 1. unfold _normalize_edge.
  rewrite delete_object_edges_lookup. by case_decide.
Qed.

(** A deleted object is out of reach.  When [delete_object], called with
    the identifier under which the object is stored, returns true, the
    caller was the owner or was allowed OWN by [can_access]; afterwards the
    object is no longer stored, no subject holds a right on it,
    [can_access] answers false for every subject and right, [read_file]
    returns nothing, the stored content is gone, and the rights on other
    objects are as before. *)
Theorem delete_object_revokes ops subject object_id ops' :
  is_Some (Objects.objects (Operations.object_identifier ops) !! object_id) →
  Operations.delete_object ops subject object_id = Some (true, ops') →
  (∃ obj, Objects.objects (Operations.object_identifier ops) !! object_id
          = Some obj
     ∧ (Objects.obj_owner obj = subject
        ∨ can_access (Operations.access_graph ops) subject object_id OWN
          = Some true))
  ∧ Objects.objects (Operations.object_identifier ops') !! object_id = None
  ∧ (∀ s r, get_rights (Operations.access_graph ops') s object_id = ∅
            ∧ can_access (Operations.access_graph ops') s object_id r
              = Some false)
  ∧ (∀ s, Operations.read_file ops' s object_id = Some None)
  ∧ Operations.file_contents ops' !! object_id = None
  ∧ ∀ s o, o ≠ object_id →
      get_rights (Operations.access_graph ops') s o
      = get_rights (Operations.access_graph ops) s o.
Proof.
  intros [obj Hobj].
  unfold Operations.delete_object, Objects.get_object. rewrite Hobj. cbn.
  destruct (if decide (Objects.obj_owner obj ≠ subject)
            then can_access (Operations.access_graph ops) subject object_id OWN
            else Some true) as [[|]|] eqn:Hallowed; [| done..].
  cbn. unfold Objects.delete_object, Objects.get_object_id. rewrite Hobj.
  destruct (decide (object_id = "")) as [|Hname]; [done |].
  rewrite Hobj. cbn. intros [= <-]. cbn.
  assert (∀ s r, can_access
                   (delete_object_edges (Operations.access_graph ops) object_id)
                   s object_id r = Some false) as Hfalse.
  { intros s r.
    destruct (can_access_is_Some
                (delete_object_edges (Operations.access_graph ops) object_id)
                s object_id r) as [[|] Hb]; [|done].
    apply can_access_true_held in Hb as [h Hh].
    apply has_right_get_rights in Hh.
    rewrite delete_object_edges_rights, decide_True in Hh by done.
    set_solver. }
  split_and!.
  - exists obj. split; [done |].
    destruct (decide (Objects.obj_owner obj ≠ subject)) as [|Hown];
      [by right | left]. by apply dec_stable in Hown.
  - apply lookup_delete_eq.
  - intros s r. split; [|done].
    by rewrite delete_object_edges_rights, decide_True.
  - intros s. unfold Operations.read_file. cbn. by rewrite Hfalse.
  - apply lookup_delete_eq.
  - intros s o Hne. by rewrite delete_object_edges_rights, decide_False.
Qed.

(** alice deletes the file she created, by its identifier. *)
Lemma delete_object_revokes_witness :
  let ops := (Operations.create_file Operations.empty_module
                "alice" "report" None "id1").2 in
  let ops' := Operations.mkOperationsModule Objects.empty_identifier
                (delete_object_edges (Operations.access_graph ops) "id1") ∅ in
  (∃ obj, Objects.objects (Operations.object_identifier ops) !! "id1"
          = Some obj
     ∧ (Objects.obj_owner obj = "alice"
        ∨ can_access (Operations.access_graph ops) "alice" "id1" OWN
          = Some true))
  ∧ Objects.objects (Operations.object_identifier ops') !! "id1" = None
  ∧ (∀ s r, get_rights (Operations.access_graph ops') s "id1" = ∅
            ∧ can_access (Operations.access_graph ops') s "id1" r = Some false)
  ∧ (∀ s, Operations.read_file ops' s "id1" = Some None)
  ∧ Operations.file_contents ops' !! "id1" = None
  ∧ ∀ s o, o ≠ "id1" →
      get_rights (Operations.access_graph ops') s o
      = get_rights (Operations.access_graph ops) s o.
Proof.
  apply (delete_object_revokes _ "alice" "id1").
  - apply (bool_decide_unpack _); vm_compute; reflexivity.
  - vm_compute; reflexivity.
Defined.

(** Deleting by name leaves the rights behind.  [delete_object] finds the
    object also by its name, but compares edges and contents with the
    argument as it was given: called with the name of a stored object (a
    name that is not itself an identifier) it returns true and the object is
    no longer stored, while every right on the object's identifier and the
    content stored under it stay as they were. *)
Theorem delete_object_by_name_keeps_rights ops subject name object_id ops' :
  Objects.objects (Operations.object_identifier ops) !! name = None →
  Objects.name_to_id (Operations.object_identifier ops) !! name
  = Some object_id →
  is_Some (Objects.objects (Operations.object_identifier ops) !! object_id) →
  Operations.delete_object ops subject name = Some (true, ops') →
  Objects.objects (Operations.object_identifier ops') !! object_id = None
  ∧ (∀ s, get_rights (Operations.access_graph ops') s object_id
          = get_rights (Operations.access_graph ops) s object_id)
  ∧ Operations.file_contents ops' !! object_id
    = Operations.file_contents ops !! object_id.
Proof.
  intros Hnoid Hname [obj Hobj].
  assert (object_id ≠ name) as Hne by (intros ->; congruence).
  unfold Operations.delete_object, Objects.get_object.
  rewrite Hnoid, Hname, Hobj. cbn.
  destruct (if decide (Objects.obj_owner obj ≠ subject)
            then can_access (Operations.access_graph ops) subject name OWN
            else Some true) as [[|]|]; [| done..].
  cbn. unfold Objects.delete_object, Objects.get_object_id.
  rewrite Hnoid, Hname.
  destruct (decide (object_id = "")) as [|Hempty]; [done |].
  rewrite Hobj. cbn. intros [= <-]. cbn. split_and!.
  - apply lookup_delete_eq.
  - intros s. by rewrite delete_object_edges_rights, decide_False.
  - by rewrite lookup_delete_ne.
Qed.

(** alice creates the file report, writes to it and deletes it by name: she
    still holds OWN on its identifier and the content is still stored. *)
Lemma delete_object_by_name_keeps_rights_witness :
  let ops0 := (Operations.create_file Operations.empty_module
                 "alice" "report" None "id1").2 in
  let ops := Operations.mkOperationsModule (Operations.object_identifier ops0)
               (Operations.access_graph ops0) {["id1" := "SECRET"]} in
  let ops' := Operations.mkOperationsModule Objects.empty_identifier
                (delete_object_edges (Operations.access_graph ops) "report")
                {["id1" := "SECRET"]} in
  Operations.write_file ops0 "alice" "id1" "SECRET" = Some (true, ops)
  ∧ Operations.delete_object ops "alice" "report" = Some (true, ops')
  ∧ has_right (Operations.access_graph ops') "alice" "id1" OWN = true
  ∧ Objects.objects (Operations.object_identifier ops') !! "id1" = None
  ∧ (∀ s, get_rights (Operations.access_graph ops') s "id1"
          = get_rights (Operations.access_graph ops) s "id1")
  ∧ Operations.file_contents ops' !! "id1"
    = Operations.file_contents ops !! "id1".
Proof.
  split; [vm_compute; reflexivity |]. split; [vm_compute; reflexivity |].
  split; [vm_compute; reflexivity |].
  apply (delete_object_by_name_keeps_rights _ "alice" "report" "id1");
    vm_compute; eauto.
Defined.

(** ** auth.py and admin.py *)







Lemma right_map_value r : right_map (AccessRight_value r) = Some r.
Proof. by destruct r. Qed.

Lemma right_map_inv right_str r :
  right_map right_str = Some r → right_str = AccessRight_value r.
Proof.
  unfold right_map. repeat case_decide; subst; by intros [= <-].
Qed.

Lemma omap_right_map_values (l : list AccessRight) :
  omap right_map (AccessRight_value <$> l) = l.
Proof.
  induction l as [|r l IH]; [done |].
  rewrite fmap_cons. cbn [omap list_omap]. rewrite right_map_value.
  cbn. by rewrite IH.
Qed.

(** The access matrix can be read back: the letters of the rights decode,
    through the letter table of the shell, to the rights themselves, so
    each entry of [get_access_matrix] gives back the right-set of its edge;
    an administrator gets one entry per stored edge, anyone else the empty
    list. *)
Theorem access_matrix_round_trip adm admin_username :
  let g := Admin.access_graph adm in
  (∀ r, right_map (AccessRight_value r) = Some r)
  ∧ (∀ right_str r, right_map right_str = Some r →
       right_str = AccessRight_value r)
  ∧ (Admin.is_admin adm admin_username = false →
       Admin.get_access_matrix adm admin_username = [])
  ∧ (Admin.is_admin adm admin_username = true →
       ∀ s o, is_Some (graph g !! (s, o)) →
         ∃ letters, (s, o, letters) ∈ Admin.get_access_matrix adm admin_username)
  ∧ (∀ s o letters,
       (s, o, letters) ∈ Admin.get_access_matrix adm admin_username →
       is_Some (graph g !! (s, o))
       ∧ list_to_set (omap right_map letters) = get_rights g s o).
Proof.
  cbv zeta. unfold Admin.get_access_matrix. split_and!.
  - apply right_map_value.
  - apply right_map_inv.
  - by intros ->.
  - intros -> s o [rs Hrs]. simpl. eexists.
    apply list_elem_of_fmap. exists ((s, o), rs).
    split; [done | by apply elem_of_map_to_list].
  - intros s o letters. destruct (negb _); [set_solver |].
    intros ([[s' o'] rs] & [= -> -> ->] & Hin%elem_of_map_to_list)%list_elem_of_fmap.
    simpl in *. split; [eauto |].
    rewrite omap_right_map_values, list_to_set_elements_L.
    unfold get_rights, _normalize_edge. by rewrite Hin.
Qed.

(** ** The owner's grant opens the file (demo_trojan.py) *)

Lemma create_file_free ops subject name parent new_id :
  Objects.name_to_id (Operations.object_identifier ops) !! name = None →
  Operations.create_file ops subject name parent new_id
  = (Some new_id,
     Operations.mkOperationsModule
       (Objects.mkObjectIdentifier
          (<[new_id := Objects.mkObjectInfo new_id name Objects.FILE
                         subject parent]>
             (Objects.objects (Operations.object_identifier ops)))
          (<[name := new_id]>
             (Objects.name_to_id (Operations.object_identifier ops))))
       (create (Operations.access_graph ops) subject new_id None).2
       (<[new_id := ""]> (Operations.file_contents ops))).
Proof.
  intros Hfree. unfold Operations.create_file, Objects.create_object.
  by rewrite Hfree.
Qed.

(** What the demonstration shows holds in every system: once a subject has
    created a file (under a free name) and written to it, a [grant] of READ
    and WRITE made in the owner's name to any other subject succeeds, and
    that subject is then allowed by [can_access] and gets the written
    content from [read_file]. *)
Theorem owner_grant_opens_file ops owner name parent new_id content other :
  Objects.name_to_id (Operations.object_identifier ops) !! name = None →
  let ops1 := (Operations.create_file ops owner name parent new_id).2 in
  ∃ ops2,
    Operations.write_file ops1 owner new_id content = Some (true, ops2)
    ∧ let granted :=
        grant (Operations.access_graph ops2) owner new_id other {[READ; WRITE]} in
      granted.1 = true
      ∧ can_access granted.2 other new_id READ = Some true
      ∧ Operations.read_file
          (Operations.mkOperationsModule (Operations.object_identifier ops2)
             granted.2 (Operations.file_contents ops2))
          other new_id
        = Some (Some content).
Proof.
  intros Hfree. rewrite (create_file_free _ _ _ _ _ Hfree). cbn [snd].
  pose proof (create_all_rights (Operations.access_graph ops) owner new_id)
    as Hall.
  set (g1 := (create (Operations.access_graph ops) owner new_id None).2) in *.
  pose proof (Hall GRANT) as Hgrant.
  pose proof (Hall WRITE) as Hwrite.
  pose proof (Hall READ) as Hread. apply has_right_get_rights in Hread.
  clearbody g1.
  unfold Operations.write_file. cbn [Operations.access_graph].
  rewrite (can_access_direct _ _ _ _ Hwrite).
  cbn. unfold Objects.get_object at 1. cbn. rewrite lookup_insert_eq. cbn.
  eexists. split; [done |]. cbn.
  rewrite grant_unfold, Hgrant.
  rewrite decide_False by set_solver. cbn [fst snd].
  assert (has_right
            (add_set g1 other new_id
               ({[READ; WRITE]} ∩ get_rights g1 owner new_id))
            other new_id READ = true) as Hother.
  { apply has_right_add_set. left. split; [done | set_solver]. }
  split; [done |]. split; [by apply can_access_direct |].
  unfold Operations.read_file. cbn.
  rewrite (can_access_direct _ _ _ _ Hother). cbn.
  unfold Objects.get_object. cbn. rewrite lookup_insert_eq. cbn.
  by rewrite lookup_insert_eq.
Qed.

(** alice's secret file and the subject attacker, as in the demonstration. *)
Lemma owner_grant_opens_file_witness :
  let ops1 := (Operations.create_file Operations.empty_module
                 "alice" "secret.txt" None "id1").2 in
  ∃ ops2,
    Operations.write_file ops1 "alice" "id1" "CONFIDENTIAL" = Some (true, ops2)
    ∧ let granted :=
        grant (Operations.access_graph ops2) "alice" "id1" "attacker"
          {[READ; WRITE]} in
      granted.1 = true
      ∧ can_access granted.2 "attacker" "id1" READ = Some true
      ∧ Operations.read_file
          (Operations.mkOperationsModule (Operations.object_identifier ops2)
             granted.2 (Operations.file_contents ops2))
          "attacker" "id1"
        = Some (Some "CONFIDENTIAL").
Proof.
  apply (owner_grant_opens_file Operations.empty_module
           "alice" "secret.txt" None "id1" "CONFIDENTIAL" "attacker").
  reflexivity.
Defined.
